(** * mcla: the analysis engine

    A shallow embedding of the analyzer of package mcla: the
    cached error descriptions ([updateErrorsLocked], [getErrors]), the
    scoring loop of [DoError], the log recorder that feeds the ring of recent
    mixin log lines, and the goroutines of [DoLogStream].

    Go values are modelled as the code has them: [float32] is IEEE binary32
    (the [Match] field), a slice is a list that may be nil, [time.Time] is an
    integer count of nanoseconds, [[]byte] is a list of bytes. *)

From Stdlib Require Import ZArith List String Ascii Bool Lia Arith.
From Stdlib Require Import Floats.SpecFloat.
Import ListNotations.

(* ------------------------------------------------------------------ *)
(** ** float32 *)

(** Go's [float32] is IEEE 754 binary32: 24 bits of precision, largest
    exponent 128, every operation rounded to nearest even.  The operations are
    those of the Standard Library's specification of floats, so they
    compute. *)
Module F32.

Definition prec : Z := 24.
Definition emax : Z := 128.

Definition float32 : Type := spec_float.

Definition add : float32 -> float32 -> float32 := SFadd prec emax.
Definition mul : float32 -> float32 -> float32 := SFmul prec emax.
Definition div : float32 -> float32 -> float32 := SFdiv prec emax.

(** [x == y] and [x != y] of Go: a NaN differs from everything, the two
    zeros are equal. *)
Definition eqb : float32 -> float32 -> bool := SFeqb.
Definition neb (x y : float32) : bool := negb (eqb x y).

(** The value of an integer constant. *)
Definition of_Z (m : Z) : float32 := binary_normalize prec emax m 0 false.

(** An untyped decimal constant [n/d] converted to [float32]: the exact
    quotient rounded once. *)
Definition of_ratio (n d : Z) : float32 := div (of_Z n) (of_Z d).

Definition zero : float32 := S754_zero false.
Definition one : float32 := of_Z 1.          (* [1]    *)
Definition half : float32 := of_ratio 1 2.   (* [0.5]  *)
Definition c0_1 : float32 := of_ratio 1 10.  (* [0.1]  *)
Definition c0_05 : float32 := of_ratio 5 100. (* [0.05] *)
Definition c0_9 : float32 := of_ratio 9 10.  (* [0.9]  *)
(** [10.0 / 100] is a constant expression: evaluated exactly, then
    converted. *)
Definition c10_div_100 : float32 := of_ratio 10 100.

End F32.

Import F32.

(* ------------------------------------------------------------------ *)
(** ** Slices *)

(** A Go slice value: [None] is the nil slice, [Some l] a non-nil slice with
    the elements [l] ([make(T, 0)] is [Some []]). *)
Definition slice (A : Type) : Type := option (list A).

Definition elems {A} (s : slice A) : list A :=
  match s with
  | None => []
  | Some l => l
  end.

Definition is_nil {A} (s : slice A) : bool :=
  match s with
  | None => true
  | Some _ => false
  end.

Definition make {A} : slice A := Some [].

Definition append {A} (s : slice A) (x : A) : slice A := Some (elems s ++ [x]).

(* ------------------------------------------------------------------ *)
(** ** Strings *)

Definition dot : ascii := "."%char.
Definition newline : ascii := "010"%char.
Definition carriage_return : ascii := "013"%char.

(** Index of the last occurrence of [b] in [s], if any. *)
Fixpoint LastIndexByte (s : string) (b : ascii) : option nat :=
  match s with
  | EmptyString => None
  | String c s' =>
      match LastIndexByte s' b with
      | Some i => Some (S i)
      | None => if Ascii.eqb c b then Some 0 else None
      end
  end.

(** Modelled from the spec: [rsplit] is a helper of the repository that is
    not in the analyzer's file.  "Split [...] into (package-prefix,
    final-segment) by the last separator; a key with no separator has an empty
    package-prefix." *)
Definition rsplit (line : string) (b : ascii) : string * string :=
  match LastIndexByte line b with
  | None => (EmptyString, line)
  | Some i => (substring 0 i line, substring (S i) (String.length line - S i) line)
  end.

(* ------------------------------------------------------------------ *)
(** ** The ring buffer *)

Module RingBuffer.

(** Modelled from the spec: [ringbuf.RingBuffer] comes from a library outside
    the repository.  "Storage is a fixed-size ring of capacity 64; the 65th
    insertion evicts the oldest"; [Clear] "clears all retained lines".  The
    retained values are kept oldest first. *)
Record t (A : Type) : Type := mk {
  cap : nat;
  items : list A
}.

Arguments mk {A} _ _.
Arguments cap {A} _.
Arguments items {A} _.

(** Modelled from the spec: [NewRingBuffer(n)], an empty ring of capacity
    [n]. *)
Definition NewRingBuffer {A} (n : nat) : t A := {| cap := n; items := [] |}.

(** Modelled from the spec: [Clear] "clears all retained lines". *)
Definition Clear {A} (r : t A) : t A := {| cap := cap r; items := [] |}.

(** Modelled from the spec: [Push], "insertion overwrites the oldest entry
    once full (ring semantics)". *)
Definition Push {A} (r : t A) (x : A) : t A :=
  {| cap := cap r;
     items := if List.length (items r) <? cap r then items r ++ [x]
              else skipn (S (List.length (items r)) - cap r) (items r ++ [x]) |}.

End RingBuffer.

(* ------------------------------------------------------------------ *)
(** ** Data model *)

(** Go's [error] values seen by the analyzer: its own sentinel and whatever
    a collaborator reports. *)
Inductive error : Type :=
| ErrCrashReportIncomplete
| ErrOther (msg : string).

(** [ErrorDesc]: the fields the analyzer reads; the rest is carried
    along. *)
Record ErrorDesc : Type := mkErrorDesc {
  Error : string;
  Message : string;
  Solutions : list nat
}.

(** [JavaError]: [CausedBy] is a pointer, nil at the root cause. *)
#[warnings="-register-all"]
Inductive JavaError : Type :=
  mkJavaError (Class : string) (JMessage : string) (CausedBy : option JavaError).

Definition Class (j : JavaError) : string := let (c, _, _) := j in c.
Definition JMessage (j : JavaError) : string := let (_, m, _) := j in m.
Definition CausedBy (j : JavaError) : option JavaError := let (_, _, c) := j in c.

Record SolutionPossibility : Type := mkSolutionPossibility {
  SErrorDesc : ErrorDesc;
  Match : float32
}.

Record ErrorResult : Type := mkErrorResult {
  RError : JavaError;
  Matched : slice SolutionPossibility;
  File : string
}.

(** Nanoseconds since the zero [time.Time]. *)
Definition Time : Type := Z.
Definition Duration : Type := Z.

Definition Hour : Duration := (3600 * 1000000000)%Z.
Definition IsZero (t : Time) : bool := (t =? 0)%Z.
Definition After (t u : Time) : bool := (u <? t)%Z.
Definition Add (t : Time) (d : Duration) : Time := (t + d)%Z.

(** The mutable fields of [Analyzer].  [DB] is an interface value whose
    answers come from outside: every operation below takes the answer of the
    call it makes as an argument. *)
Record Analyzer : Type := mkAnalyzer {
  lastUpdateErr : Time;
  cachedErrors : slice ErrorDesc;
  recentMixinLogs : RingBuffer.t string
}.

(** What one call of [DB.ForEachErrors] does, as its callback sees it: the
    descriptions it is shown, in order, and the error the call returns once
    the enumeration stops. *)
Record ErrorDB : Type := mkErrorDB {
  db_visits : list ErrorDesc;
  db_result : option error
}.

(** [ForEachErrors cb]: the callback threads its captured variables [st];
    an error of the callback stops the enumeration and is returned. *)
Fixpoint forEach {S} (visits : list ErrorDesc) (result : option error)
    (cb : ErrorDesc -> S -> S * option error) (st : S) : S * option error :=
  match visits with
  | [] => (st, result)
  | e :: rest =>
      match cb e st with
      | (st', Some err) => (st', Some err)
      | (st', None) => forEach rest result cb st'
      end
  end.

Definition ForEachErrors {S} (db : ErrorDB)
    (cb : ErrorDesc -> S -> S * option error) (st : S) : S * option error :=
  forEach (db_visits db) (db_result db) cb st.

(** [NewAnalyzer]. *)
Definition NewAnalyzer : Analyzer :=
  {| lastUpdateErr := 0%Z; cachedErrors := None; recentMixinLogs := RingBuffer.NewRingBuffer 64 |}.

(* ------------------------------------------------------------------ *)
(** ** The cache of error descriptions *)

(** [updateErrorsLocked]: [now] is the value of [time.Now()] read after a
    successful enumeration. *)
Definition updateErrorsLocked (a : Analyzer) (db : ErrorDB) (now : Time)
  : Analyzer * option error :=
  let errors : slice ErrorDesc := make in
  match ForEachErrors db (fun e errors => (append errors e, None)) errors with
  | (_, Some err) => (a, Some err)
  | (errors, None) =>
      ({| lastUpdateErr := now;
          cachedErrors := errors;
          recentMixinLogs := recentMixinLogs a |}, None)
  end.

(** [UpdateErrors]: [updateErrorsLocked] under the write lock. *)
Definition UpdateErrors (a : Analyzer) (db : ErrorDB) (now : Time)
  : Analyzer * option error :=
  updateErrorsLocked a db now.

(** [a.lastUpdateErr.IsZero() || time.Now().After(a.lastUpdateErr.Add(time.Hour))] *)
Definition needUpdate (a : Analyzer) (now : Time) : bool :=
  IsZero (lastUpdateErr a) || After now (Add (lastUpdateErr a) Hour).

(** The three readings of [time.Now()] a call of [getErrors] may make: under
    the read lock, under the write lock, and inside [updateErrorsLocked]. *)
Record Clock : Type := mkClock {
  now_rlock : Time;
  now_lock : Time;
  now_update : Time
}.

(** [getErrors], run without interference.  The error of
    [updateErrorsLocked] is dropped, and the result type has no error. *)
Definition getErrors (a : Analyzer) (db : ErrorDB) (clk : Clock)
  : slice ErrorDesc * Analyzer :=
  let a' :=
    if needUpdate a (now_rlock clk) then
      if needUpdate a (now_lock clk) then
        fst (updateErrorsLocked a db (now_update clk))
      else a
    else a in
  (cachedErrors a', a').

(* ------------------------------------------------------------------ *)
(** ** Scoring *)

Section Scoring.

(** Collaborators defined outside the analyzer's file. *)
Variable HardCodedChecks : Analyzer -> JavaError -> option ErrorDesc * option error.
Variable split : string -> ascii -> string * string.
Variable lineMatchPercent : string -> string -> float32.

(** [len(ecls2) == 0 || ecls2 == "*"] *)
Definition ignoreErrorTyp (ecls2 : string) : bool :=
  (String.length ecls2 =? 0) || String.eqb ecls2 "*".

(** The body of the loop of [DoError] up to the test [sol.Match != 0]:
    the value of [sol.Match] for the error [jerr] and the description
    [e]. *)
Definition score (jerr : JavaError) (e : ErrorDesc) : float32 :=
  let '(epkg, ecls) := rsplit (Class jerr) dot in
  let sol_Match := zero in
  let '(epkg2, ecls2) := rsplit (Error e) dot in
  let ignoreErrorTyp := ignoreErrorTyp ecls2 in
  let sol_Match :=
    if negb ignoreErrorTyp && String.eqb ecls2 ecls then
      if String.eqb epkg2 "*" || String.eqb epkg epkg2 then c0_1 else c0_05
    else sol_Match in
  if String.length (Message e) =? 0 then
    div sol_Match c10_div_100
  else
    let '(jemsg, _) := split (JMessage jerr) newline in
    let matches := lineMatchPercent jemsg (Message e) in
    if ignoreErrorTyp then matches
    else add sol_Match (mul matches c0_9).

(** One iteration of the loop. *)
Definition DoError_step (jerr : JavaError)
    (matched : slice SolutionPossibility) (e : ErrorDesc)
  : slice SolutionPossibility :=
  let sol := {| SErrorDesc := e; Match := score jerr e |} in
  if neb (Match sol) zero then append matched sol else matched.

(** [DoError].  The named result [err] is never assigned, and the error of
    [HardCodedChecks] is discarded. *)
Definition DoError (a : Analyzer) (db : ErrorDB) (clk : Clock) (jerr : JavaError)
  : (slice SolutionPossibility * option error) * Analyzer :=
  match fst (HardCodedChecks a jerr) with
  | Some e => ((Some [ {| SErrorDesc := e; Match := one |} ], None), a)
  | None =>
      let '(errs, a') := getErrors a db clk in
      let matched := fold_left (DoError_step jerr) (elems errs) None in
      let matched := if is_nil matched then make else matched in
      ((matched, None), a')
  end.

(** What the loop of [DoError] keeps: in order, the descriptions whose score
    differs from zero. *)
Definition candidates (jerr : JavaError) (errs : list ErrorDesc)
  : list SolutionPossibility :=
  map (fun e => {| SErrorDesc := e; Match := score jerr e |})
      (filter (fun e => neb (score jerr e) zero) errs).

End Scoring.

(** What a caller of [getErrors] observes.  The function has the single
    result [[]*ErrorDesc]: a call always returns a (possibly nil) set, and
    there is no error for it to return. *)
Inductive get_result : Type :=
| GetReturned (errs : slice ErrorDesc)
| GetFailed (err : error).

Definition getErrors_result (a : Analyzer) (db : ErrorDB) (clk : Clock) : get_result :=
  GetReturned (fst (getErrors a db clk)).

(* ------------------------------------------------------------------ *)
(** ** Regular expressions *)

(** The part of Go's [regexp] that [mixinLogRe] uses, as a backtracking
    matcher with Go's leftmost-first preference: a greedy repetition tries
    the longest run first and gives characters back one at a time.  The
    pattern only has ASCII literals and classes that take or leave every
    byte above 0x7f, so matching bytes and matching runes agree. *)
Module Regexp.

Inductive inst : Type :=
| Bol                          (* [^]: beginning of the text *)
| Eol                          (* [$]: end of the text *)
| Lit (c : ascii)              (* a literal byte *)
| Star (cls : ascii -> bool)   (* [c*] for a class [c], greedy *)
| Plus (cls : ascii -> bool)   (* [c+] for a class [c], greedy *)
| Cap (slot : nat).            (* record the position in a slot *)

(** Slots 0 and 1 delimit the whole match, 2 and 3 the first group. *)
Definition slots : Type := list nat.

Fixpoint set_slot (n : nat) (pos : nat) (caps : slots) : slots :=
  match caps, n with
  | [], _ => []
  | _ :: rest, O => pos :: rest
  | c :: rest, S n' => c :: set_slot n' pos rest
  end.

Definition cont : Type := nat -> list ascii -> slots -> option slots.

Fixpoint star (cls : ascii -> bool) (k : cont) (pos : nat) (s : list ascii)
    (caps : slots) {struct s} : option slots :=
  match s with
  | c :: s' =>
      if cls c then
        match star cls k (S pos) s' caps with
        | Some r => Some r
        | None => k pos s caps
        end
      else k pos s caps
  | [] => k pos s caps
  end.

Definition step (i : inst) (k : cont) : cont :=
  fun pos s caps =>
    match i with
    | Bol => if pos =? 0 then k pos s caps else None
    | Eol => match s with [] => k pos s caps | _ :: _ => None end
    | Lit c =>
        match s with
        | c' :: s' => if Ascii.eqb c' c then k (S pos) s' caps else None
        | [] => None
        end
    | Star cls => star cls k pos s caps
    | Plus cls =>
        match s with
        | c' :: s' => if cls c' then star cls k (S pos) s' caps else None
        | [] => None
        end
    | Cap n => k pos s (set_slot n pos caps)
    end.

(** Run a program from position [pos] with [s] left to read. *)
Fixpoint exec (prog : list inst) : cont :=
  match prog with
  | [] => fun _ _ caps => Some caps
  | i :: prog' => step i (exec prog')
  end.

(** Unanchored search: the leftmost start position that matches. *)
Fixpoint search (prog : list inst) (pos : nat) (s : list ascii) : option slots :=
  match exec (Cap 0 :: prog ++ [Cap 1]) pos s [0; 0; 0; 0] with
  | Some r => Some r
  | None =>
      match s with
      | [] => None
      | _ :: s' => search prog (S pos) s'
      end
  end.

Definition slice_of (b : list ascii) (lo hi : nat) : list ascii :=
  firstn (hi - lo) (skipn lo b).

(** [FindSubmatch] for a pattern with one group: nil, or the whole match
    and the text of the group. *)
Definition FindSubmatch (prog : list inst) (b : list ascii)
  : option (list (list ascii)) :=
  match search prog 0 b with
  | Some r => Some [slice_of b (nth 0 r 0) (nth 1 r 0); slice_of b (nth 2 r 0) (nth 3 r 0)]
  | None => None
  end.

(** [[^\]]], [\s] (which is [[\t\n\f\r ]]) and [.] (anything but a line
    feed). *)
Definition not_rbracket (c : ascii) : bool := negb (Ascii.eqb c "]").

Definition space (c : ascii) : bool :=
  Ascii.eqb c "009" || Ascii.eqb c "010" || Ascii.eqb c "012"
  || Ascii.eqb c "013" || Ascii.eqb c " ".

Definition any_char (c : ascii) : bool := negb (Ascii.eqb c "010").

Definition lits (s : string) : list inst := map Lit (list_ascii_of_string s).

End Regexp.

Import Regexp.

(* ------------------------------------------------------------------ *)
(** ** The log recorder *)

(** [^\[[^\]]*\]\s*\[[^\]]*\]\s*\[mixin/[^\]]*\]:\s*(.+)$] *)
Definition mixinLogRe : list inst :=
  [Bol; Lit "["; Star not_rbracket; Lit "]"; Star space;
   Lit "["; Star not_rbracket; Lit "]"; Star space]
  ++ lits "[mixin/" ++
  [Star not_rbracket; Lit "]"; Lit ":"; Star space;
   Cap 2; Plus any_char; Cap 3; Eol].

(** Assignment to the field [recentMixinLogs]. *)
Definition set_recentMixinLogs (a : Analyzer) (rb : RingBuffer.t string) : Analyzer :=
  {| lastUpdateErr := lastUpdateErr a;
     cachedErrors := cachedErrors a;
     recentMixinLogs := rb |}.

(** [logRecorder]; the analyzer it points to is threaded next to it. *)
Record logRecorder : Type := mkLogRecorder {
  closed : bool;
  buf : list ascii
}.

(** [newLogRecorder] *)
Definition newLogRecorder (a : Analyzer) : Analyzer * logRecorder :=
  (set_recentMixinLogs a (RingBuffer.Clear (recentMixinLogs a)),
   {| closed := false; buf := [] |}).

(** [record] *)
Definition record (a : Analyzer) (buf : list ascii) : Analyzer :=
  match FindSubmatch mixinLogRe buf with
  | Some matches =>
      set_recentMixinLogs a
        (RingBuffer.Push (recentMixinLogs a)
                         (string_of_list_ascii (nth 1 matches [])))
  | None => a
  end.

(** [bytes.IndexByte]: -1 when [c] does not occur. *)
Fixpoint IndexByte (b : list ascii) (c : ascii) : Z :=
  match b with
  | [] => (-1)%Z
  | x :: b' =>
      if Ascii.eqb x c then 0%Z
      else let i := IndexByte b' c in
           if (i <? 0)%Z then (-1)%Z else (i + 1)%Z
  end.

(** [r.buf[i:j]] *)
Definition subslice (b : list ascii) (i j : Z) : list ascii :=
  firstn (Z.to_nat (j - i)) (skipn (Z.to_nat i) b).

(** The loop of [Write]; every turn moves [i] past one line feed, so
    [fuel] above the length of the buffer is never used up. *)
Fixpoint Write_loop (fuel : nat) (a : Analyzer) (rbuf : list ascii) (i : Z)
  : Analyzer * Z :=
  match fuel with
  | O => (a, i)
  | S fuel' =>
      let j := (i + IndexByte (skipn (Z.to_nat i) rbuf) newline)%Z in
      if (j <? i)%Z then (a, i)
      else Write_loop fuel' (record a (subslice rbuf i j)) rbuf (j + 1)%Z
  end.

(** [Write]: the analyzer, the recorder, and the two results. *)
Definition Write (a : Analyzer) (r : logRecorder) (b : list ascii)
  : Analyzer * logRecorder * (Z * option error) :=
  let rbuf := buf r ++ b in
  let '(a', i) := Write_loop (S (List.length rbuf)) a rbuf 0%Z in
  let rbuf := if (0 <? i)%Z then skipn (Z.to_nat i) rbuf else rbuf in
  (a', {| closed := closed r; buf := rbuf |}, (Z.of_nat (List.length b), None)).

(** [Close] *)
Definition Close (r : logRecorder) : logRecorder * option error :=
  if closed r then (r, None)
  else ({| closed := true; buf := [] |}, None).

(** The shape of a mixin log line, [[tag][tag][mixin/tag]: payload]: three
    bracketed segments, the third starting with [mixin/], white space allowed
    after each, a colon, and a payload that is not empty and has no line
    feed. *)
Definition bytes (s : string) : list ascii := list_ascii_of_string s.

Definition mixin_line (line payload : list ascii) : Prop :=
  exists t1 w1 t2 w2 t3 w3 : list ascii,
    line = bytes "[" ++ t1 ++ bytes "]" ++ w1
           ++ bytes "[" ++ t2 ++ bytes "]" ++ w2
           ++ bytes "[mixin/" ++ t3 ++ bytes "]:" ++ w3 ++ payload /\
    forallb not_rbracket t1 = true /\ forallb space w1 = true /\
    forallb not_rbracket t2 = true /\ forallb space w2 = true /\
    forallb not_rbracket t3 = true /\ forallb space w3 = true /\
    payload <> [] /\ forallb any_char payload = true.

(** Of the white space after the colon the payload keeps nothing ([\s*] is
    greedy), unless white space is all there is: then the payload is its last
    character. *)
Definition payload_trimmed (payload : list ascii) : Prop :=
  match payload with
  | [] => False
  | c :: rest => space c = false \/ rest = []
  end.

(** The complete lines of a text and what follows the last line feed. *)
Fixpoint split_lines (cur : list ascii) (b : list ascii)
  : list (list ascii) * list ascii :=
  match b with
  | [] => ([], cur)
  | c :: b' =>
      if Ascii.eqb c newline then
        let (ls, rest) := split_lines [] b' in (cur :: ls, rest)
      else split_lines (cur ++ [c]) b'
  end.

Definition no_newline (l : list ascii) : bool :=
  forallb (fun x => negb (Ascii.eqb x newline)) l.

(** The payloads a sequence of lines leaves behind: a mixin line leaves its
    trimmed payload, any other line leaves nothing. *)
Inductive kept : list (list ascii) -> list (list ascii) -> Prop :=
| kept_nil : kept [] []
| kept_push line p lines ps :
    mixin_line line p -> payload_trimmed p ->
    kept lines ps -> kept (line :: lines) (p :: ps)
| kept_drop line lines ps :
    ~ (exists p, mixin_line line p) ->
    kept lines ps -> kept (line :: lines) ps.

(** The last [n] elements of a list. *)
Definition lastn {A} (n : nat) (l : list A) : list A :=
  skipn (List.length l - n) l.

(** Sample log text: line [i] carries [i + 1] times the letter x. *)
Definition sample_payload (i : nat) : list ascii := repeat "x"%char (S i).

Definition sample_line (i : nat) : list ascii :=
  bytes "[12:00:00] [main/INFO] [mixin/]: " ++ sample_payload i.

Definition sample_log (n : nat) : list ascii :=
  flat_map (fun i => sample_line i ++ [newline]) (seq 0 n).

(* ------------------------------------------------------------------ *)
(** ** Concurrent calls of [getErrors] *)

(** Goroutines calling [getErrors] on one analyzer, interleaved at the
    operations on [errMux] and on the shared fields.  [sync.RWMutex]: [RLock]
    waits while a writer holds the lock, [Lock] waits while a writer or any
    reader does. *)
Module Conc.

(** Where a goroutine is in [getErrors]. *)
Inductive pc : Type :=
| AtRLock                        (* before [a.errMux.RLock()] *)
| AtCheck                        (* read lock held, before the test *)
| AtRUnlock (needUpdate : bool)  (* before [a.errMux.RUnlock()] *)
| AtLock                         (* [needUpdate] was true, before [Lock()] *)
| AtRecheck                      (* write lock held, before the second test *)
| AtUpdate                       (* before [a.updateErrorsLocked()] *)
| AtUnlock                       (* before [a.errMux.Unlock()] *)
| AtReturn                       (* before [return a.cachedErrors] *)
| Returned (errs : slice ErrorDesc).

(** Between [Lock] and [Unlock]. *)
Definition in_write (p : pc) : bool :=
  match p with
  | AtRecheck | AtUpdate | AtUnlock => true
  | _ => false
  end.

Record state : Type := mkState {
  an : Analyzer;
  readers : nat;             (* goroutines between [RLock] and [RUnlock] *)
  writer : option nat;       (* the goroutine between [Lock] and [Unlock] *)
  pcs : nat -> pc;           (* every goroutine, by number *)
  fetches : nat;             (* calls of [DB.ForEachErrors] so far *)
  refreshes : nat            (* those that replaced the cached set *)
}.

(** One scheduling decision: the goroutine that runs its next operation,
    the clock it would read, and the answer the repository would give. *)
Record event : Type := mkEvent {
  ev_tid : nat;
  ev_now : Time;
  ev_db : ErrorDB
}.

Definition set_pc (f : nat -> pc) (tid : nat) (p : pc) : nat -> pc :=
  fun t => if t =? tid then p else f t.

(** The next operation of goroutine [ev_tid]; a goroutine that has to wait
    for the lock, or has returned, leaves the state as it is. *)
Definition step (st : state) (e : event) : state :=
  let tid := ev_tid e in
  let goto (p : pc) : state :=
    mkState (an st) (readers st) (writer st) (set_pc (pcs st) tid p)
            (fetches st) (refreshes st) in
  match pcs st tid with
  | AtRLock =>
      match writer st with
      | None =>
          mkState (an st) (S (readers st)) None (set_pc (pcs st) tid AtCheck)
                  (fetches st) (refreshes st)
      | Some _ => st
      end
  | AtCheck => goto (AtRUnlock (needUpdate (an st) (ev_now e)))
  | AtRUnlock needUpdate =>
      mkState (an st) (pred (readers st)) (writer st)
              (set_pc (pcs st) tid (if needUpdate then AtLock else AtReturn))
              (fetches st) (refreshes st)
  | AtLock =>
      match writer st, readers st with
      | None, O =>
          mkState (an st) 0 (Some tid) (set_pc (pcs st) tid AtRecheck)
                  (fetches st) (refreshes st)
      | _, _ => st
      end
  | AtRecheck =>
      goto (if needUpdate (an st) (ev_now e) then AtUpdate else AtUnlock)
  | AtUpdate =>
      let (a', err) := updateErrorsLocked (an st) (ev_db e) (ev_now e) in
      mkState a' (readers st) (writer st) (set_pc (pcs st) tid AtUnlock)
              (S (fetches st))
              (match err with None => S (refreshes st) | Some _ => refreshes st end)
  | AtUnlock =>
      mkState (an st) (readers st) None (set_pc (pcs st) tid AtReturn)
              (fetches st) (refreshes st)
  | AtReturn => goto (Returned (cachedErrors (an st)))
  | Returned _ => st
  end.

Definition run (sched : list event) (st : state) : state :=
  fold_left step sched st.

(** Every goroutine about to call [getErrors], nobody holding the lock. *)
Definition init (a : Analyzer) : state :=
  mkState a 0 None (fun _ => AtRLock) 0 0.

(** The same clock reading and repository answer for a list of scheduling
    decisions. *)
Definition sched_of (db : ErrorDB) (now : Time) (tids : list nat) : list event :=
  map (fun t => mkEvent t now db) tids.

End Conc.

(** What every interleaving keeps true while the clock stays within
    [lo, lo + Hour]: only the holder of the write lock is between [Lock] and
    [Unlock]; at most one refresh replaced the set; once one did, the set is
    fresh; a goroutine about to refresh has seen the set stale. *)
Definition conc_inv (lo : Time) (st : Conc.state) : Prop :=
  (forall tid, Conc.in_write (Conc.pcs st tid) = true <-> Conc.writer st = Some tid) /\
  Conc.refreshes st <= 1 /\
  (Conc.refreshes st = 1 -> (lo <= lastUpdateErr (Conc.an st) <= lo + Hour)%Z) /\
  (forall tid, Conc.pcs st tid = Conc.AtUpdate -> Conc.refreshes st = 0).

(* ------------------------------------------------------------------ *)
(** ** The stream pipeline *)

(** The cause chain of an error, outermost first: the values [jerr] takes in
    the loop [for jerr != nil { ...; jerr = jerr.CausedBy }]. *)
Fixpoint chain (j : JavaError) : list JavaError :=
  match j with
  | mkJavaError _ _ c =>
      j :: match c with
           | None => []
           | Some j' => chain j'
           end
  end.

Definition chain_opt (oj : option JavaError) : list JavaError :=
  match oj with
  | None => []
  | Some j => chain j
  end.

(** The goroutines of [DoLogStream], interleaved at their channel
    operations.  A call of [DoError] is one step.  The scanner
    ([ScanJavaErrorsIntoChan]) is outside the analyzer's file: it is
    represented by what it delivers on its two channels and by the pieces of
    input it reads through the tee. *)
Module Pipe.

(** The cause of the session context [ctx]. *)
Inductive cause : Type :=
| CauseTokenizer (err : error)   (* [cancel(err)], [err] from [errCh] *)
| CauseScore (err : error)       (* [cancel(err)], [err] from [DoError] *)
| CauseParent.                   (* the context [c] of the caller is done *)

(** A scoring goroutine. *)
Inductive task : Type :=
| TLoop (jerr : option JavaError)                (* at [for jerr != nil] *)
| TSelect (res : ErrorResult) (jerr : JavaError) (* at its [select] *)
| TDone.                                         (* returned, [wg.Done()] ran *)

(** The goroutine started by [DoLogStream]. *)
Inductive main : Type :=
| MLoop    (* at the [select] of the loop *)
| MWait    (* at [wg.Wait()] *)
| MDone.   (* returned: the deferred calls closed the recorder and [result] *)

(** What happens on the channel [result]. *)
Inductive obs : Type :=
| OSend (tid : nat) (res : ErrorResult)
| OClose
| OPanic (tid : nat).            (* send on the closed channel *)

Record state : Type := mkState {
  an : Analyzer;
  recorder : logRecorder;
  resCh : list (option JavaError);  (* what the scanner delivers on [resCh] *)
  errCh : option error;             (* and on [errCh] *)
  main_pc : main;
  tasks : list (JavaError * task);  (* goroutines spawned, with their error *)
  result : list ErrorResult;        (* the buffer of [result], capacity 3 *)
  closed : bool;                    (* [result] is closed *)
  ctx : option cause;               (* [ctx] is done, with its cause *)
  received : list ErrorResult;      (* what the reader of [result] got *)
  trace : list obs;                 (* the history of [result] *)
  panicked : bool
}.

Inductive action : Type :=
| MainRecv                      (* [case jerr := <-resCh] *)
| MainErr                       (* [case err := <-errCh] *)
| MainCtxDone                   (* [case <-ctx.Done()] of the main loop *)
| MainWaited                    (* [wg.Wait()] returns *)
| TaskStep (tid : nat) (clk : Clock) (db : ErrorDB)
                                (* loop test and [DoError] *)
| TaskSend (tid : nat)          (* [case result <- res] *)
| TaskCtxDone (tid : nat)       (* [case <-ctx.Done()] of a task *)
| Consume                       (* the caller receives from [result] *)
| ParentCancel                  (* the caller cancels [c] *)
| Tee (b : list ascii).         (* the scanner reads [b] through the tee *)

Definition result_cap : nat := 3.

(** [cancel(cause)]: the first cause stays. *)
Definition cancel (c : cause) (cur : option cause) : option cause :=
  match cur with
  | None => Some c
  | Some _ => cur
  end.

Fixpoint set_task (ts : list (JavaError * task)) (tid : nat) (t : task)
  : list (JavaError * task) :=
  match ts, tid with
  | [], _ => []
  | (top, _) :: rest, O => (top, t) :: rest
  | x :: rest, S n => x :: set_task rest n t
  end.

Definition task_at (ts : list (JavaError * task)) (tid : nat) : option task :=
  option_map snd (nth_error ts tid).

Definition all_done (ts : list (JavaError * task)) : bool :=
  forallb (fun p => match snd p with TDone => true | _ => false end) ts.

Section WithCollaborators.

Variable HardCodedChecks : Analyzer -> JavaError -> option ErrorDesc * option error.
Variable split : string -> ascii -> string * string.
Variable lineMatchPercent : string -> string -> float32.

(** The main goroutine returns: [recorder.Close()], then [close(result)]. *)
Definition main_return (st : state) (c : option cause) (errCh' : option error)
  : state :=
  mkState (an st) (fst (Close (recorder st))) (resCh st) errCh' MDone (tasks st)
          (result st) true c (received st) (trace st ++ [OClose]) (panicked st).

Definition with_tasks (st : state) (a : Analyzer) (ts : list (JavaError * task))
    (c : option cause) : state :=
  mkState a (recorder st) (resCh st) (errCh st) (main_pc st) ts
          (result st) (closed st) c (received st) (trace st) (panicked st).

(** One operation; an operation that cannot proceed leaves the state as it
    is, and nothing runs after a panic. *)
Definition step (st : state) (act : action) : state :=
  if panicked st then st else
  match act with
  | MainRecv =>
      match main_pc st, resCh st with
      | MLoop, None :: rest =>
          mkState (an st) (recorder st) rest (errCh st) MWait (tasks st)
                  (result st) (closed st) (ctx st) (received st) (trace st)
                  (panicked st)
      | MLoop, Some jerr :: rest =>
          mkState (an st) (recorder st) rest (errCh st) MLoop
                  (tasks st ++ [(jerr, TLoop (Some jerr))])
                  (result st) (closed st) (ctx st) (received st) (trace st)
                  (panicked st)
      | _, _ => st
      end
  | MainErr =>
      match main_pc st, errCh st with
      | MLoop, Some err => main_return st (cancel (CauseTokenizer err) (ctx st)) None
      | _, _ => st
      end
  | MainCtxDone =>
      match main_pc st, ctx st with
      | MLoop, Some _ => main_return st (ctx st) (errCh st)
      | _, _ => st
      end
  | MainWaited =>
      match main_pc st with
      | MWait => if all_done (tasks st) then main_return st (ctx st) (errCh st) else st
      | _ => st
      end
  | TaskStep tid clk db =>
      match task_at (tasks st) tid with
      | Some (TLoop None) => with_tasks st (an st) (set_task (tasks st) tid TDone) (ctx st)
      | Some (TLoop (Some jerr)) =>
          match DoError HardCodedChecks split lineMatchPercent (an st) db clk jerr with
          | ((_, Some err), a') =>
              with_tasks st a' (set_task (tasks st) tid TDone)
                         (cancel (CauseScore err) (ctx st))
          | ((matched, None), a') =>
              let res := {| RError := jerr; Matched := matched; File := "" |} in
              with_tasks st a' (set_task (tasks st) tid (TSelect res jerr)) (ctx st)
          end
      | _ => st
      end
  | TaskSend tid =>
      match task_at (tasks st) tid with
      | Some (TSelect res jerr) =>
          if closed st then
            mkState (an st) (recorder st) (resCh st) (errCh st) (main_pc st)
                    (tasks st) (result st) (closed st) (ctx st) (received st)
                    (trace st ++ [OPanic tid]) true
          else if List.length (result st) <? result_cap then
            mkState (an st) (recorder st) (resCh st) (errCh st) (main_pc st)
                    (set_task (tasks st) tid (TLoop (CausedBy jerr)))
                    (result st ++ [res]) (closed st) (ctx st) (received st)
                    (trace st ++ [OSend tid res]) (panicked st)
          else st
      | _ => st
      end
  | TaskCtxDone tid =>
      match task_at (tasks st) tid, ctx st with
      | Some (TSelect _ _), Some _ =>
          with_tasks st (an st) (set_task (tasks st) tid TDone) (ctx st)
      | _, _ => st
      end
  | Consume =>
      match result st with
      | res :: rest =>
          mkState (an st) (recorder st) (resCh st) (errCh st) (main_pc st)
                  (tasks st) rest (closed st) (ctx st) (received st ++ [res])
                  (trace st) (panicked st)
      | [] => st
      end
  | ParentCancel =>
      with_tasks st (an st) (tasks st) (cancel CauseParent (ctx st))
  | Tee b =>
      let '(a', r', _) := Write (an st) (recorder st) b in
      mkState a' r' (resCh st) (errCh st) (main_pc st) (tasks st)
              (result st) (closed st) (ctx st) (received st) (trace st)
              (panicked st)
  end.

Definition run (sched : list action) (st : state) : state :=
  fold_left step sched st.

End WithCollaborators.

(** [DoLogStream] has started its goroutine, which has made the recorder;
    the scanner will deliver [res] and [err]. *)
Definition init (a : Analyzer) (res : list (option JavaError)) (err : option error)
  : state :=
  let (a', r) := newLogRecorder a in
  mkState a' r res err MLoop [] [] false None [] [] false.

(** The results goroutine [tid] has sent, in order. *)
Definition sent_by (tid : nat) (tr : list obs) : list ErrorResult :=
  flat_map (fun o => match o with
                     | OSend t res => if t =? tid then [res] else []
                     | _ => []
                     end) tr.

(** Everything sent, in order. *)
Definition sent (tr : list obs) : list ErrorResult :=
  flat_map (fun o => match o with OSend _ res => [res] | _ => [] end) tr.

Definition is_send (o : obs) : bool :=
  match o with OSend _ _ => true | _ => false end.


End Pipe.

(** What the pipeline keeps true of a scoring goroutine [tid] spawned for
    the top-level error [fst p]: the errors of the results it has sent,
    followed by the errors it still has to go through, are the cause chain of
    its top-level error; once it has returned, what it has sent is the
    beginning of the chain, and all of it unless the context is done. *)
Definition task_ok (c : option Pipe.cause) (tr : list Pipe.obs) (tid : nat)
    (p : JavaError * Pipe.task) : Prop :=
  let sent := map RError (Pipe.sent_by tid tr) in
  match snd p with
  | Pipe.TLoop oj => sent ++ chain_opt oj = chain (fst p)
  | Pipe.TSelect res j => RError res = j /\ sent ++ chain j = chain (fst p)
  | Pipe.TDone =>
      (exists rest, sent ++ rest = chain (fst p)) /\
      (c <> None \/ sent = chain (fst p))
  end.

Definition tasks_inv (st : Pipe.state) : Prop :=
  (forall tid p, nth_error (Pipe.tasks st) tid = Some p ->
                 task_ok (Pipe.ctx st) (Pipe.trace st) tid p) /\
  (forall tid, List.length (Pipe.tasks st) <= tid ->
               Pipe.sent_by tid (Pipe.trace st) = []).

(** The history of [result]: sends only, then the close, then at most the
    panic of a send on the closed channel; the main goroutine has returned
    exactly when the channel is closed, and when it returned while the
    context was not done every scoring goroutine had returned. *)
Definition trace_inv (st : Pipe.state) : Prop :=
  (Pipe.main_pc st = Pipe.MDone <-> Pipe.closed st = true) /\
  (Pipe.closed st = false ->
   forallb Pipe.is_send (Pipe.trace st) = true /\ Pipe.panicked st = false) /\
  (Pipe.closed st = true ->
   exists pre, forallb Pipe.is_send pre = true /\
     ((Pipe.trace st = pre ++ [Pipe.OClose] /\ Pipe.panicked st = false) \/
      (exists tid, Pipe.trace st = pre ++ [Pipe.OClose; Pipe.OPanic tid] /\
                   Pipe.panicked st = true))) /\
  (Pipe.main_pc st = Pipe.MDone ->
   Pipe.ctx st <> None \/ Pipe.all_done (Pipe.tasks st) = true) /\
  Pipe.received st ++ Pipe.result st = Pipe.sent (Pipe.trace st) /\
  List.length (Pipe.result st) <= Pipe.result_cap.

(** The context is never done because of a scoring goroutine. *)
Definition cause_inv (st : Pipe.state) : Prop :=
  forall err, Pipe.ctx st <> Some (Pipe.CauseScore err).

(** The scoring goroutines are spawned for the errors the scanner delivers,
    in order, one each; while the main goroutine is in its loop, [resCh]
    holds what the scanner has delivered beyond them. *)
Definition spawn_inv (res0 : list (option JavaError)) (st : Pipe.state) : Prop :=
  exists tail,
    res0 = map Some (map fst (Pipe.tasks st)) ++ tail /\
    (Pipe.main_pc st = Pipe.MLoop -> Pipe.resCh st = tail).

(** Only a session whose context is done panics. *)
Definition panic_inv (st : Pipe.state) : Prop :=
  Pipe.panicked st = true -> Pipe.ctx st <> None.

(** The text the scanner has read through the tee in a schedule. *)
Definition teed (sched : list Pipe.action) : list ascii :=
  flat_map (fun act => match act with Pipe.Tee b => b | _ => [] end) sched.

(** While the main goroutine has not returned, the ring and the recorder's
    buffer are what recording the text [t] read so far leaves, starting from
    the analyzer [a0]. *)
Definition tee_inv (a0 : Analyzer) (st : Pipe.state) (t : list ascii) : Prop :=
  Pipe.main_pc st <> Pipe.MDone ->
  Pipe.panicked st = false ->
  recentMixinLogs (Pipe.an st)
  = recentMixinLogs (fold_left record (fst (split_lines [] t)) a0) /\
  buf (Pipe.recorder st) = snd (split_lines [] t).

(** What holds of the place of a goroutine when the repository never fails:
    past a test that found the set fresh, or past its own refresh, the cached
    set is not nil; what it returned is not nil. *)
Definition pc_ok (a : Analyzer) (p : Conc.pc) : Prop :=
  match p with
  | Conc.AtRUnlock false | Conc.AtUnlock | Conc.AtReturn => cachedErrors a <> None
  | Conc.Returned errs => errs <> None
  | _ => True
  end.

Definition loaded_inv (st : Conc.state) : Prop :=
  (IsZero (lastUpdateErr (Conc.an st)) = false -> cachedErrors (Conc.an st) <> None) /\
  forall tid, pc_ok (Conc.an st) (Conc.pcs st tid).

(* ------------------------------------------------------------------ *)
(** ** Stand-ins for the collaborators, for the examples *)

(** The collaborators of [DoError] are parameters of the development.  The
    examples instantiate them: no hard-coded check applies, [split] cuts at
    the first separator, and the line matcher answers [0.8]. *)
Definition no_HardCodedChecks (_ : Analyzer) (_ : JavaError)
  : option ErrorDesc * option error := (None, None).

Fixpoint split_first (line : string) (b : ascii) : string * string :=
  match line with
  | EmptyString => (EmptyString, EmptyString)
  | String c rest =>
      if Ascii.eqb c b then (EmptyString, rest)
      else let (l, r) := split_first rest b in (String c l, r)
  end.

Definition c0_8 : float32 := of_ratio 8 10.

Definition lineMatch_0_8 (_ _ : string) : float32 := c0_8.

(** A sample error with one cause, a clock and a repository. *)
Definition sample_inner : JavaError := mkJavaError "java.io.IOException" "disk" None.

Definition sample_outer : JavaError :=
  mkJavaError "java.lang.RuntimeException" "boom" (Some sample_inner).

Definition sample_clk : Clock :=
  {| now_rlock := 10; now_lock := 11; now_update := 12 |}%Z.

Definition sample_db : ErrorDB :=
  {| db_visits := [ {| Error := "java.io.IOException"; Message := ""; Solutions := [] |} ];
     db_result := None |}.

(* ================================================================== *)
(** * Properties *)

(* ------------------------------------------------------------------ *)
(** ** float32 constants and helpers *)

(** The bit patterns 0x3DCCCCCD, 0x3D4CCCCD and 0x3F666666. *)
Example c0_1_bits : c0_1 = S754_finite false 13421773 (-27).
Proof. reflexivity. Qed.

Example c0_05_bits : c0_05 = S754_finite false 13421773 (-28).
Proof. reflexivity. Qed.

Example c0_9_bits : c0_9 = S754_finite false 15099494 (-24).
Proof. reflexivity. Qed.

Example c10_div_100_is_c0_1 : c10_div_100 = c0_1.
Proof. reflexivity. Qed.

Lemma neb_zero_not_zero (x : float32) :
  neb x zero = true -> forall s, x <> S754_zero s.
Proof.
  intros H s ->. destruct s; discriminate H.
Qed.

Example rsplit_npe :
  rsplit "java.lang.NullPointerException" dot
  = ("java.lang"%string, "NullPointerException"%string).
Proof. reflexivity. Qed.

Example rsplit_nodot : rsplit "Foo" dot = (""%string, "Foo"%string).
Proof. reflexivity. Qed.

Example rsplit_star : rsplit "com.example.*" dot = ("com.example"%string, "*"%string).
Proof. reflexivity. Qed.

(* ------------------------------------------------------------------ *)
(** ** The cache *)

(** The callback of [updateErrorsLocked] never fails: the enumeration shows
    every description and ends with the collaborator's own result. *)
Lemma forEach_collect (visits : list ErrorDesc) (result : option error)
    (st : slice ErrorDesc) :
  forEach visits result (fun e errors => (append errors e, None)) st
  = (match visits with [] => st | _ => Some (elems st ++ visits) end, result).
Proof.
  revert st. induction visits as [|e rest IH]; intros st; simpl.
  - reflexivity.
  - rewrite IH. destruct rest; simpl; [reflexivity|].
    now rewrite <- app_assoc.
Qed.

Lemma updateErrorsLocked_fail (a : Analyzer) (db : ErrorDB) (now : Time) (err : error) :
  db_result db = Some err ->
  updateErrorsLocked a db now = (a, Some err).
Proof.
  intros H. unfold updateErrorsLocked, ForEachErrors.
  rewrite forEach_collect, H. reflexivity.
Qed.

Lemma updateErrorsLocked_ok (a : Analyzer) (db : ErrorDB) (now : Time) :
  db_result db = None ->
  updateErrorsLocked a db now
  = ({| lastUpdateErr := now;
        cachedErrors := Some (db_visits db);
        recentMixinLogs := recentMixinLogs a |}, None).
Proof.
  intros H. unfold updateErrorsLocked, ForEachErrors.
  rewrite forEach_collect, H. unfold make. simpl.
  now destruct (db_visits db).
Qed.

(** While the repository fails, [getErrors] returns the cached set as it
    is and changes nothing. *)
Lemma getErrors_refresh_fails (a : Analyzer) (db : ErrorDB) (clk : Clock) (err : error) :
  db_result db = Some err ->
  getErrors a db clk = (cachedErrors a, a).
Proof.
  intros Hdb. unfold getErrors.
  rewrite (updateErrorsLocked_fail a db (now_update clk) err Hdb). cbn [fst].
  now destruct (needUpdate a (now_rlock clk)), (needUpdate a (now_lock clk)).
Qed.

(** C6: when the repository's enumeration returns an error, the refresh
    returns that very error and the analyzer is left as it was: the cached
    descriptions and the time of the last successful refresh are the old
    ones, and [getErrors] still returns the old descriptions. *)
Theorem refresh_failure_keeps_cache (a : Analyzer) (db : ErrorDB) (now : Time)
    (err : error) :
  db_result db = Some err ->
  let (a', r) := UpdateErrors a db now in
  r = Some err /\
  cachedErrors a' = cachedErrors a /\
  lastUpdateErr a' = lastUpdateErr a /\
  a' = a /\
  forall clk, fst (getErrors a' db clk) = cachedErrors a.
Proof.
  intros H. unfold UpdateErrors. rewrite (updateErrorsLocked_fail a db now err H).
  repeat split. intros clk. now rewrite (getErrors_refresh_fails a db clk err H).
Qed.

(** The enumeration stops half way with an error: the set cached an hour and
    a half ago stays. *)
Lemma refresh_failure_keeps_cache_witness :
  let old := {| Error := "java.lang.NullPointerException"; Message := ""; Solutions := [1] |} in
  let a := {| lastUpdateErr := 5%Z; cachedErrors := Some [old]; recentMixinLogs := RingBuffer.NewRingBuffer 64 |} in
  let db := {| db_visits := [ {| Error := "a.B"; Message := "m"; Solutions := [] |} ];
               db_result := Some (ErrOther "unreachable") |} in
  let (a', r) := UpdateErrors a db (5 + Hour + Hour / 2)%Z in
  r = Some (ErrOther "unreachable") /\
  cachedErrors a' = Some [old] /\ lastUpdateErr a' = 5%Z /\ a' = a /\
  forall clk, fst (getErrors a' db clk) = Some [old].
Proof.
  intros old a db.
  exact (refresh_failure_keeps_cache a db (5 + Hour + Hour / 2)%Z
           (ErrOther "unreachable") eq_refl).
Defined.

Lemma needUpdate_zero (a : Analyzer) (now : Time) :
  IsZero (lastUpdateErr a) = true -> needUpdate a now = true.
Proof. intros H. unfold needUpdate. now rewrite H. Qed.

(** C3, as the code has it: while no refresh has succeeded, a call of
    [getErrors] finds the set stale under both locks and refreshes; when that
    refresh fails the call does not fail.  It returns the cached set as it is
    (the nil slice when nothing was ever cached), drops the refresh error,
    and leaves the analyzer unchanged. *)
Theorem getErrors_unloaded_refresh_fails (a : Analyzer) (db : ErrorDB) (clk : Clock)
    (err : error) :
  IsZero (lastUpdateErr a) = true ->
  db_result db = Some err ->
  needUpdate a (now_rlock clk) = true /\
  needUpdate a (now_lock clk) = true /\
  updateErrorsLocked a db (now_update clk) = (a, Some err) /\
  getErrors a db clk = (cachedErrors a, a) /\
  getErrors_result a db clk = GetReturned (cachedErrors a).
Proof.
  intros Hz Hdb. unfold getErrors_result.
  rewrite (getErrors_refresh_fails a db clk err Hdb).
  rewrite !needUpdate_zero by exact Hz.
  rewrite (updateErrorsLocked_fail a db (now_update clk) err Hdb).
  repeat split.
Qed.

Lemma getErrors_unloaded_refresh_fails_witness :
  let db := {| db_visits := []; db_result := Some (ErrOther "fetch failed") |} in
  let clk := {| now_rlock := 1000; now_lock := 1001; now_update := 1002 |}%Z in
  getErrors NewAnalyzer db clk = (None, NewAnalyzer) /\
  getErrors_result NewAnalyzer db clk = GetReturned None.
Proof.
  intros db clk.
  exact (proj2 (proj2 (proj2 (getErrors_unloaded_refresh_fails NewAnalyzer db clk
                                (ErrOther "fetch failed") eq_refl eq_refl)))).
Defined.

(** C3 as stated fails: on a fresh analyzer whose first refresh fails,
    [getErrors] returns the nil set; no error comes back. *)
Lemma getErrors_never_NotYetLoaded :
  let db := {| db_visits := []; db_result := Some (ErrOther "fetch failed") |} in
  let clk := {| now_rlock := 1000; now_lock := 1001; now_update := 1002 |}%Z in
  IsZero (lastUpdateErr NewAnalyzer) = true /\
  cachedErrors NewAnalyzer = None /\
  fst (UpdateErrors NewAnalyzer db (now_update clk)) = NewAnalyzer /\
  snd (UpdateErrors NewAnalyzer db (now_update clk)) = Some (ErrOther "fetch failed") /\
  getErrors_result NewAnalyzer db clk = GetReturned None /\
  ~ (exists err, getErrors_result NewAnalyzer db clk = GetFailed err).
Proof.
  intros db clk. repeat split.
  intros [err H]. discriminate H.
Qed.

(* ------------------------------------------------------------------ *)
(** ** Scoring *)

Lemma length_zero_iff (s : string) : (String.length s =? 0) = true <-> s = EmptyString.
Proof.
  destruct s; simpl; split; intros H; try reflexivity; discriminate H.
Qed.

Lemma ignoreErrorTyp_true_iff (ecls2 : string) :
  ignoreErrorTyp ecls2 = true <-> ecls2 = EmptyString \/ ecls2 = "*"%string.
Proof.
  unfold ignoreErrorTyp. rewrite orb_true_iff, length_zero_iff, String.eqb_eq.
  reflexivity.
Qed.

Lemma ignoreErrorTyp_false_iff (ecls2 : string) :
  ignoreErrorTyp ecls2 = false <-> ecls2 <> EmptyString /\ ecls2 <> "*"%string.
Proof.
  rewrite <- not_true_iff_false, ignoreErrorTyp_true_iff. tauto.
Qed.

Lemma pkg_match_true_iff (epkg epkg2 : string) :
  String.eqb epkg2 "*" || String.eqb epkg epkg2 = true
  <-> epkg = epkg2 \/ epkg2 = "*"%string.
Proof.
  rewrite orb_true_iff, !String.eqb_eq. tauto.
Qed.

Lemma pkg_match_false_iff (epkg epkg2 : string) :
  String.eqb epkg2 "*" || String.eqb epkg epkg2 = false
  <-> epkg <> epkg2 /\ epkg2 <> "*"%string.
Proof.
  rewrite <- not_true_iff_false, pkg_match_true_iff. tauto.
Qed.

Section ScoringProperties.

Variable HardCodedChecks : Analyzer -> JavaError -> option ErrorDesc * option error.
Variable split : string -> ascii -> string * string.
Variable lineMatchPercent : string -> string -> float32.

Let score_ := score split lineMatchPercent.
Let DoError_ := DoError HardCodedChecks split lineMatchPercent.

(** C1: for a description with a non-empty message, where [overlapScore] is
    what [lineMatchPercent] returns on the first part of the error's message
    and the description's message: when the last segment of the description's
    key is empty or "*", the score is [overlapScore] itself; otherwise, when
    the last segments are equal, the score is [0.1 + overlapScore * 0.9] if
    the packages are equal or the description's package is "*", and
    [0.05 + overlapScore * 0.9] if not (in [float32] arithmetic). *)
Theorem score_with_message (jerr : JavaError) (e : ErrorDesc)
    (epkg ecls epkg2 ecls2 jemsg rest : string) :
  Message e <> EmptyString ->
  rsplit (Class jerr) dot = (epkg, ecls) ->
  rsplit (Error e) dot = (epkg2, ecls2) ->
  split (JMessage jerr) newline = (jemsg, rest) ->
  let overlapScore := lineMatchPercent jemsg (Message e) in
  (ecls2 = EmptyString \/ ecls2 = "*"%string -> score_ jerr e = overlapScore) /\
  (ecls2 <> EmptyString -> ecls2 <> "*"%string -> ecls2 = ecls ->
     (epkg = epkg2 \/ epkg2 = "*"%string ->
        score_ jerr e = add c0_1 (mul overlapScore c0_9)) /\
     (epkg <> epkg2 -> epkg2 <> "*"%string ->
        score_ jerr e = add c0_05 (mul overlapScore c0_9))).
Proof.
  intros Hmsg Hj He Hs overlapScore.
  assert (Hlen : (String.length (Message e) =? 0) = false).
  { apply not_true_iff_false. now rewrite length_zero_iff. }
  unfold score_, score. rewrite Hj, He, Hlen, Hs. fold overlapScore.
  split.
  - intros Hi. apply ignoreErrorTyp_true_iff in Hi. now rewrite Hi.
  - intros H1 H2 Heq.
    assert (Hi : ignoreErrorTyp ecls2 = false)
      by (apply ignoreErrorTyp_false_iff; now split).
    rewrite Hi. subst ecls. rewrite String.eqb_refl. simpl. split.
    + intros Hp. apply pkg_match_true_iff in Hp. now rewrite Hp.
    + intros Hp1 Hp2.
      assert (Hp : String.eqb epkg2 "*" || String.eqb epkg epkg2 = false)
        by (apply pkg_match_false_iff; now split).
      now rewrite Hp.
Qed.

(** C2, as the code has it: for a description without message whose last
    key segment is neither empty nor "*" and equals the error's last
    segment, the score is [1] if the packages are equal or the description's
    package is "*", and [0.5] if not. *)
Theorem score_without_message (jerr : JavaError) (e : ErrorDesc)
    (epkg ecls epkg2 ecls2 : string) :
  Message e = EmptyString ->
  rsplit (Class jerr) dot = (epkg, ecls) ->
  rsplit (Error e) dot = (epkg2, ecls2) ->
  ecls2 <> EmptyString -> ecls2 <> "*"%string ->
  ecls2 = ecls ->
  (epkg = epkg2 \/ epkg2 = "*"%string -> score_ jerr e = one) /\
  (epkg <> epkg2 -> epkg2 <> "*"%string -> score_ jerr e = half).
Proof.
  intros Hmsg Hj He H1 H2 Heq.
  assert (Hi : ignoreErrorTyp ecls2 = false)
    by (apply ignoreErrorTyp_false_iff; now split).
  unfold score_, score. rewrite Hj, He, Hmsg, Hi. subst ecls.
  rewrite String.eqb_refl. simpl. split.
  - intros Hp. apply pkg_match_true_iff in Hp. rewrite Hp. reflexivity.
  - intros Hp1 Hp2.
    assert (Hp : String.eqb epkg2 "*" || String.eqb epkg epkg2 = false)
      by (apply pkg_match_false_iff; now split).
    rewrite Hp. reflexivity.
Qed.

(** Without message and with a last key segment that is empty or "*" the
    score is zero, whatever the error's class. *)
Lemma score_without_message_ignored (jerr : JavaError) (e : ErrorDesc) :
  Message e = EmptyString ->
  ignoreErrorTyp (snd (rsplit (Error e) dot)) = true ->
  score_ jerr e = zero.
Proof.
  intros Hmsg Hi. unfold score_, score.
  destruct (rsplit (Class jerr) dot) as [epkg ecls].
  destruct (rsplit (Error e) dot) as [epkg2 ecls2]. simpl in Hi.
  rewrite Hi, Hmsg. reflexivity.
Qed.

Lemma DoError_loop (jerr : JavaError) (errs : list ErrorDesc)
    (matched : slice SolutionPossibility) :
  elems (fold_left (DoError_step split lineMatchPercent jerr) errs matched)
  = elems matched ++ candidates split lineMatchPercent jerr errs.
Proof.
  revert matched. induction errs as [|e errs IH]; intros matched; simpl.
  - now rewrite app_nil_r.
  - rewrite IH. unfold DoError_step, candidates. simpl.
    fold (score_ jerr e). destruct (neb (score_ jerr e) zero); simpl.
    + now rewrite <- app_assoc.
    + reflexivity.
Qed.

Lemma DoError_generic (a : Analyzer) (db : ErrorDB) (clk : Clock) (jerr : JavaError) :
  fst (HardCodedChecks a jerr) = None ->
  DoError_ a db clk jerr
  = ((Some (candidates split lineMatchPercent jerr (elems (fst (getErrors a db clk)))), None),
     snd (getErrors a db clk)).
Proof.
  intros H. unfold DoError_, DoError. rewrite H.
  destruct (getErrors a db clk) as [errs a'] eqn:Hg. simpl.
  pose proof (DoError_loop jerr (elems errs) None) as HL. simpl in HL.
  destruct (fold_left (DoError_step split lineMatchPercent jerr) (elems errs) None) as [l|]; simpl in *.
  - now rewrite HL.
  - now rewrite <- HL.
Qed.

Lemma DoError_hardcoded (a : Analyzer) (db : ErrorDB) (clk : Clock) (jerr : JavaError)
    (e : ErrorDesc) :
  fst (HardCodedChecks a jerr) = Some e ->
  DoError_ a db clk jerr = ((Some [ {| SErrorDesc := e; Match := one |} ], None), a).
Proof.
  intros H. unfold DoError_, DoError. now rewrite H.
Qed.

(** [DoError] never returns an error, whatever the collaborators answer. *)
Lemma DoError_err_nil (a : Analyzer) (db : ErrorDB) (clk : Clock) (jerr : JavaError) :
  snd (fst (DoError_ a db clk jerr)) = None.
Proof.
  destruct (fst (HardCodedChecks a jerr)) as [e|] eqn:H.
  - now rewrite (DoError_hardcoded a db clk jerr e H).
  - now rewrite (DoError_generic a db clk jerr H).
Qed.

(** C8: the list [DoError] returns is never nil, no candidate in it has a
    score equal to zero (neither zero of [float32]), and when no cached
    description scores the list is the empty non-nil slice. *)
Theorem DoError_matched_nonzero (a : Analyzer) (db : ErrorDB) (clk : Clock)
    (jerr : JavaError) :
  exists l : list SolutionPossibility,
    fst (fst (DoError_ a db clk jerr)) = Some l /\
    is_nil (fst (fst (DoError_ a db clk jerr))) = false /\
    Forall (fun sol => neb (Match sol) zero = true /\
                       forall s, Match sol <> S754_zero s) l /\
    (fst (HardCodedChecks a jerr) = None ->
     (forall e, In e (elems (fst (getErrors a db clk))) -> eqb (score_ jerr e) zero = true) ->
     l = []).
Proof.
  destruct (fst (HardCodedChecks a jerr)) as [e|] eqn:H.
  - rewrite (DoError_hardcoded a db clk jerr e H). simpl.
    eexists; repeat split.
    + constructor; [|constructor]. simpl. split; [reflexivity|].
      intros s Hs. destruct s; discriminate Hs.
    + intros Hn. discriminate Hn.
  - rewrite (DoError_generic a db clk jerr H). cbn [fst snd is_nil].
    exists (candidates split lineMatchPercent jerr (elems (fst (getErrors a db clk)))).
    split; [reflexivity|]. split; [reflexivity|]. split.
    + unfold candidates. apply Forall_forall. intros sol Hin.
      apply in_map_iff in Hin. destruct Hin as [e [<- He]].
      apply filter_In in He. destruct He as [_ He]. simpl. split; [exact He|].
      now apply neb_zero_not_zero.
    + intros _. unfold candidates.
      generalize (elems (fst (getErrors a db clk))) as errs.
      induction errs as [|e errs IH]; intros Hall; [reflexivity|].
      simpl. unfold neb at 1. fold (score_ jerr e).
      rewrite (Hall e (or_introl eq_refl)). simpl.
      apply IH. intros e' He'. apply Hall. now right.
Qed.

End ScoringProperties.

(** A concrete class with a concrete message: [0.1 + 0.8 * 0.9], which is
    the [float32] nearest to 0.82. *)
Lemma score_with_message_witness :
  let jerr := mkJavaError "com.example.Foo" "Could not load class
	at com.example.Foo.bar(Foo.java:1)" None in
  let e := {| Error := "com.example.Foo"; Message := "Could not load class";
              Solutions := [] |} in
  score split_first lineMatch_0_8 jerr e = add c0_1 (mul c0_8 c0_9) /\
  add c0_1 (mul c0_8 c0_9) = of_ratio 82 100.
Proof.
  intros jerr e. split; [|reflexivity].
  refine (proj1 (proj2 (score_with_message split_first lineMatch_0_8 jerr e
                          "com.example" "Foo" "com.example" "Foo"
                          "Could not load class"
                          "	at com.example.Foo.bar(Foo.java:1)"
                          _ eq_refl eq_refl eq_refl) _ _ eq_refl) (or_introl eq_refl));
    discriminate.
Defined.

Lemma score_without_message_witness :
  let jerr := mkJavaError "java.lang.NullPointerException" "" None in
  let e := {| Error := "*.NullPointerException"; Message := ""; Solutions := [] |} in
  let e' := {| Error := "org.NullPointerException"; Message := ""; Solutions := [] |} in
  score split_first lineMatch_0_8 jerr e = one /\
  score split_first lineMatch_0_8 jerr e' = half.
Proof.
  intros jerr e e'. split.
  - refine (proj1 (score_without_message split_first lineMatch_0_8 jerr e
                     "java.lang" "NullPointerException" "*" "NullPointerException"
                     eq_refl eq_refl eq_refl _ _ eq_refl) (or_intror eq_refl));
      discriminate.
  - refine (proj2 (score_without_message split_first lineMatch_0_8 jerr e'
                     "java.lang" "NullPointerException" "org" "NullPointerException"
                     eq_refl eq_refl eq_refl _ _ eq_refl) _ _);
      discriminate.
Defined.

(** C2 as stated fails when the equal last segments are "*" (or empty):
    the description's message is empty, the last segments and the packages
    are equal, and the score is zero, neither [1] nor [0.5]; [DoError] drops
    the description. *)
Lemma score_without_message_star_is_zero :
  let jerr := mkJavaError "com.example.*" "boom" None in
  let e := {| Error := "com.example.*"; Message := ""; Solutions := [] |} in
  let a := {| lastUpdateErr := 1%Z; cachedErrors := Some [e];
              recentMixinLogs := RingBuffer.NewRingBuffer 64 |} in
  let clk := {| now_rlock := 2; now_lock := 3; now_update := 4 |}%Z in
  Message e = EmptyString /\
  rsplit (Class jerr) dot = ("com.example", "*")%string /\
  rsplit (Error e) dot = ("com.example", "*")%string /\
  score split_first lineMatch_0_8 jerr e = zero /\
  score split_first lineMatch_0_8 jerr e <> one /\
  score split_first lineMatch_0_8 jerr e <> half /\
  fst (DoError no_HardCodedChecks split_first lineMatch_0_8 a
         {| db_visits := []; db_result := None |} clk jerr)
  = (Some [], None).
Proof.
  intros jerr e a clk. repeat split; discriminate.
Qed.

(** The same for the zero values of [JavaError] and [ErrorDesc], whose
    last segments are both empty. *)
Example score_without_message_empty_class :
  let jerr := mkJavaError "" "" None in
  let e := {| Error := ""; Message := ""; Solutions := [] |} in
  rsplit (Class jerr) dot = (""%string, ""%string) /\
  rsplit (Error e) dot = (""%string, ""%string) /\
  score split_first lineMatch_0_8 jerr e = zero.
Proof. repeat split. Qed.

Lemma DoError_matched_nonzero_witness :
  let jerr := mkJavaError "java.lang.NullPointerException" "" None in
  let e := {| Error := "java.io.IOException"; Message := ""; Solutions := [] |} in
  let a := {| lastUpdateErr := 1%Z; cachedErrors := Some [e];
              recentMixinLogs := RingBuffer.NewRingBuffer 64 |} in
  let clk := {| now_rlock := 2; now_lock := 3; now_update := 4 |}%Z in
  let db := {| db_visits := []; db_result := None |} in
  fst (fst (DoError no_HardCodedChecks split_first lineMatch_0_8 a db clk jerr))
  = Some [].
Proof.
  intros jerr e a clk db.
  destruct (DoError_matched_nonzero no_HardCodedChecks split_first lineMatch_0_8
              a db clk jerr) as [l [H1 [_ [_ H4]]]].
  rewrite H1. f_equal. apply H4; [reflexivity|].
  intros e0 [<-|[]]. reflexivity.
Defined.

(* ------------------------------------------------------------------ *)
(** ** The matcher *)

Lemma star_inv (cls : ascii -> bool) (k : cont) (s : list ascii) :
  forall pos caps r,
  star cls k pos s caps = Some r ->
  exists t s',
    s = t ++ s' /\ forallb cls t = true /\
    k (pos + List.length t) s' caps = Some r /\
    (forall c s'', s' = c :: s'' -> cls c = true ->
       star cls k (S (pos + List.length t)) s'' caps = None).
Proof.
  induction s as [|c s IH]; intros pos caps r H; simpl in H.
  - exists [], []. simpl. rewrite Nat.add_0_r. repeat split; try assumption.
    intros c s'' Hs. discriminate Hs.
  - destruct (cls c) eqn:Hc.
    + destruct (star cls k (S pos) s caps) as [r'|] eqn:Hs.
      * injection H as <-. destruct (IH _ _ _ Hs) as [t [s' [E [Ht [Hk Hg]]]]].
        exists (c :: t), s'. simpl. rewrite Hc, Ht, <- E.
        rewrite Nat.add_succ_r. repeat split; assumption.
      * exists [], (c :: s). simpl. rewrite Nat.add_0_r. repeat split; try assumption.
        intros c0 s'' E _. injection E as <- <-. exact Hs.
    + exists [], (c :: s). simpl. rewrite Nat.add_0_r. repeat split; try assumption.
      intros c0 s'' E Hc0. injection E as <- <-. congruence.
Qed.

Lemma star_complete (cls : ascii -> bool) (k : cont) (t s' : list ascii) :
  forall pos caps,
  forallb cls t = true ->
  k (pos + List.length t) s' caps <> None ->
  star cls k pos (t ++ s') caps <> None.
Proof.
  induction t as [|c t IH]; intros pos caps Ht Hk; simpl in *.
  - rewrite Nat.add_0_r in Hk.
    destruct s' as [|c s']; simpl; [exact Hk|].
    destruct (cls c); [|exact Hk].
    destruct (star cls k (S pos) s' caps); [discriminate|exact Hk].
  - apply andb_true_iff in Ht. destruct Ht as [Hc Ht]. rewrite Hc.
    rewrite Nat.add_succ_r in Hk.
    specialize (IH (S pos) caps Ht Hk).
    destruct (star cls k (S pos) (t ++ s') caps); [discriminate|contradiction].
Qed.

Lemma exec_Bol_inv prog pos s caps r :
  exec (Bol :: prog) pos s caps = Some r ->
  pos = 0 /\ exec prog pos s caps = Some r.
Proof.
  simpl. destruct (Nat.eqb_spec pos 0); [now split|discriminate].
Qed.

Lemma exec_Eol_inv prog pos s caps r :
  exec (Eol :: prog) pos s caps = Some r ->
  s = [] /\ exec prog pos s caps = Some r.
Proof.
  simpl. destruct s; [now split|discriminate].
Qed.

Lemma exec_Lit_inv c prog pos s caps r :
  exec (Lit c :: prog) pos s caps = Some r ->
  exists s', s = c :: s' /\ exec prog (S pos) s' caps = Some r.
Proof.
  simpl. destruct s as [|c' s']; [discriminate|].
  destruct (Ascii.eqb_spec c' c); [|discriminate].
  subst. intros H. now exists s'.
Qed.

Lemma exec_Star_inv cls prog pos s caps r :
  exec (Star cls :: prog) pos s caps = Some r ->
  exists t s',
    s = t ++ s' /\ forallb cls t = true /\
    exec prog (pos + List.length t) s' caps = Some r /\
    (forall c s'', s' = c :: s'' -> cls c = true ->
       exec prog (S (pos + List.length t)) s'' caps = None).
Proof.
  simpl. intros H. destruct (star_inv _ _ _ _ _ _ H) as [t [s' [E [Ht [Hk Hg]]]]].
  exists t, s'. repeat split; try assumption.
  intros c s'' Es Hc. specialize (Hg c s'' Es Hc).
  destruct (exec prog (S (pos + List.length t)) s'' caps) eqn:Hx; [|reflexivity].
  exfalso. apply (star_complete cls (exec prog) [] s'' (S (pos + List.length t)) caps eq_refl).
  - simpl. rewrite Nat.add_0_r, Hx. discriminate.
  - exact Hg.
Qed.

Lemma exec_Plus_inv cls prog pos s caps r :
  exec (Plus cls :: prog) pos s caps = Some r ->
  exists c t s',
    s = c :: t ++ s' /\ cls c = true /\ forallb cls t = true /\
    exec prog (S pos + List.length t) s' caps = Some r.
Proof.
  simpl. destruct s as [|c s]; [discriminate|].
  destruct (cls c) eqn:Hc; [|discriminate].
  intros H. destruct (star_inv _ _ _ _ _ _ H) as [t [s' [E [Ht [Hk _]]]]].
  exists c, t, s'. subst. repeat split; assumption.
Qed.

Lemma exec_Cap_inv n prog pos s caps r :
  exec (Cap n :: prog) pos s caps = Some r ->
  exec prog pos s (set_slot n pos caps) = Some r.
Proof. simpl. trivial. Qed.

Lemma exec_Lit_here c prog pos s caps :
  exec (Lit c :: prog) pos (c :: s) caps = exec prog (S pos) s caps.
Proof. simpl. now rewrite Ascii.eqb_refl. Qed.

Lemma exec_Star_complete cls prog pos t s' caps :
  forallb cls t = true ->
  exec prog (pos + List.length t) s' caps <> None ->
  exec (Star cls :: prog) pos (t ++ s') caps <> None.
Proof. intros Ht Hk. simpl. now apply star_complete. Qed.

Lemma exec_Plus_complete cls prog pos c t s' caps :
  cls c = true -> forallb cls t = true ->
  exec prog (S pos + List.length t) s' caps <> None ->
  exec (Plus cls :: prog) pos (c :: t ++ s') caps <> None.
Proof. intros Hc Ht Hk. simpl. rewrite Hc. now apply star_complete. Qed.

(** The pattern, instruction by instruction. *)
Lemma mixinLogRe_insts :
  mixinLogRe =
  [Bol; Lit "["; Star not_rbracket; Lit "]"; Star space;
   Lit "["; Star not_rbracket; Lit "]"; Star space;
   Lit "["; Lit "m"; Lit "i"; Lit "x"; Lit "i"; Lit "n"; Lit "/";
   Star not_rbracket; Lit "]"; Lit ":"; Star space;
   Cap 2; Plus any_char; Cap 3; Eol].
Proof. reflexivity. Qed.

(** The pattern starts with [^]: only position 0 can match. *)
Lemma search_mixinLogRe (s : list ascii) :
  forall pos, pos <> 0 -> search mixinLogRe pos s = None.
Proof.
  induction s as [|c s IH]; intros pos Hpos.
  - simpl. destruct (Nat.eqb_spec pos 0); [contradiction|reflexivity].
  - cbn [search]. rewrite IH by discriminate.
    simpl. destruct (Nat.eqb_spec pos 0); [contradiction|reflexivity].
Qed.

Lemma search_mixinLogRe_0 (s : list ascii) :
  search mixinLogRe 0 s = exec (Cap 0 :: mixinLogRe ++ [Cap 1]) 0 s [0; 0; 0; 0].
Proof.
  destruct s as [|c s]; cbn [search].
  - now destruct (exec _ 0 [] _).
  - rewrite search_mixinLogRe by discriminate. now destruct (exec _ 0 (c :: s) _).
Qed.

Lemma slice_of_app (pre p post : list ascii) :
  slice_of (pre ++ p ++ post) (List.length pre) (List.length pre + List.length p) = p.
Proof.
  unfold slice_of. rewrite skipn_app, skipn_all, Nat.sub_diag. simpl.
  replace (List.length pre + List.length p - List.length pre) with (List.length p) by lia.
  rewrite firstn_app, firstn_all, Nat.sub_diag. simpl. now rewrite app_nil_r.
Qed.

Lemma slice_of_all (b : list ascii) : slice_of b 0 (List.length b) = b.
Proof.
  unfold slice_of. simpl. rewrite Nat.sub_0_r. apply firstn_all.
Qed.

Lemma exec_Cap_inv_None n prog pos s caps :
  exec (Cap n :: prog) pos s caps = None ->
  exec prog pos s (set_slot n pos caps) = None.
Proof. simpl. trivial. Qed.

Ltac inv_lit H s :=
  apply exec_Lit_inv in H; let E := fresh "E" in destruct H as [s [E H]]; subst.

Ltac inv_star H t s Ht Hg :=
  apply exec_Star_inv in H; let E := fresh "E" in
  destruct H as [t [s [E [Ht [H Hg]]]]]; subst.

(** What a match of [mixinLogRe] returns: the whole line, and a payload that
    makes the line a mixin line. *)
Lemma FindSubmatch_mixinLogRe_inv (line : list ascii) (m : list (list ascii)) :
  FindSubmatch mixinLogRe line = Some m ->
  exists payload,
    m = [line; payload] /\ mixin_line line payload /\ payload_trimmed payload.
Proof.
  unfold FindSubmatch. rewrite search_mixinLogRe_0, mixinLogRe_insts.
  cbn [app].
  destruct (exec _ 0 line _) as [r|] eqn:H; [|discriminate].
  intros Hm. injection Hm as <-.
  apply exec_Cap_inv in H.
  apply exec_Bol_inv in H. destruct H as [_ H].
  inv_lit H s1. inv_star H t1 s2 Ht1 Hg1. clear Hg1. inv_lit H s3.
  inv_star H w1 s4 Hw1 Hg1. clear Hg1.
  inv_lit H s5. inv_star H t2 s6 Ht2 Hg2. clear Hg2. inv_lit H s7.
  inv_star H w2 s8 Hw2 Hg2. clear Hg2.
  inv_lit H s9. inv_lit H s10. inv_lit H s11. inv_lit H s12. inv_lit H s13.
  inv_lit H s14. inv_lit H s15.
  inv_star H t3 s16 Ht3 Hg3. clear Hg3. inv_lit H s17. inv_lit H s18.
  inv_star H w3 s19 Hw3 Hg3.
  apply exec_Cap_inv in H.
  apply exec_Plus_inv in H. destruct H as [c [t [s' [E [Hc [Ht H]]]]]]. subst.
  apply exec_Cap_inv in H. apply exec_Eol_inv in H. destruct H as [-> H].
  apply exec_Cap_inv in H. cbn [exec] in H. injection H as <-.
  rewrite app_nil_r in *.
  exists (c :: t). cbn [nth].
  set (pre := bytes "[" ++ t1 ++ bytes "]" ++ w1 ++ bytes "[" ++ t2 ++ bytes "]" ++ w2
              ++ bytes "[mixin/" ++ t3 ++ bytes "]:" ++ w3).
  match goal with |- [slice_of ?l _ _; _] = _ /\ _ => set (line := l) end.
  assert (EL : line = pre ++ (c :: t) ++ []).
  { unfold line, pre. rewrite app_nil_r.
    repeat (cbn [bytes list_ascii_of_string app]; rewrite <- ?app_assoc).
    reflexivity. }
  assert (Lpre : List.length pre
                 = 13 + List.length t1 + List.length w1 + List.length t2
                   + List.length w2 + List.length t3 + List.length w3).
  { unfold pre. rewrite !length_app. simpl. lia. }
  assert (Lline : List.length line = List.length pre + S (List.length t)).
  { rewrite EL, !length_app. simpl. lia. }
  assert (EM : line = bytes "[" ++ t1 ++ bytes "]" ++ w1 ++ bytes "[" ++ t2
                     ++ bytes "]" ++ w2 ++ bytes "[mixin/" ++ t3 ++ bytes "]:"
                     ++ w3 ++ c :: t) by reflexivity.
  clearbody line pre.
  split; [|split].
  - f_equal; [|f_equal].
    + etransitivity; [|apply (slice_of_all line)]. f_equal. lia.
    + rewrite EL. etransitivity; [|apply (slice_of_app pre (c :: t) [])].
      f_equal; simpl; lia.
  - exists t1, w1, t2, w2, t3, w3.
    split; [exact EM|].
    repeat split; try assumption; [discriminate|].
    simpl. now rewrite Hc, Ht.
  - simpl. destruct (space c) eqn:Hs; [right|now left].
    specialize (Hg3 c t eq_refl Hs).
    destruct t as [|c' t']; [reflexivity|exfalso].
    simpl in Ht. apply andb_true_iff in Ht. destruct Ht as [Hc' Ht'].
    apply exec_Cap_inv_None in Hg3. revert Hg3.
    rewrite <- (app_nil_r t').
    apply exec_Plus_complete; [assumption..|].
    simpl. discriminate.
Qed.

Lemma exec_Cap_here n prog pos s caps :
  exec (Cap n :: prog) pos s caps = exec prog pos s (set_slot n pos caps).
Proof. reflexivity. Qed.

Lemma exec_Bol_here prog s caps :
  exec (Bol :: prog) 0 s caps = exec prog 0 s caps.
Proof. reflexivity. Qed.

Lemma exec_Eol_here prog pos caps :
  exec (Eol :: prog) pos [] caps = exec prog pos [] caps.
Proof. reflexivity. Qed.

(** Every mixin line is matched. *)
Lemma FindSubmatch_mixinLogRe_complete (line payload : list ascii) :
  mixin_line line payload -> FindSubmatch mixinLogRe line <> None.
Proof.
  intros (t1 & w1 & t2 & w2 & t3 & w3 & E & Ht1 & Hw1 & Ht2 & Hw2 & Ht3 & Hw3 & Hne & Hp).
  destruct payload as [|c t]; [contradiction|].
  simpl in Hp. apply andb_true_iff in Hp. destruct Hp as [Hc Ht].
  unfold FindSubmatch. rewrite search_mixinLogRe_0, mixinLogRe_insts. cbn [app].
  match goal with |- match ?e with _ => _ end <> _ =>
    assert (H : e <> None); [|destruct e; [discriminate|contradiction]] end.
  subst line. cbn [bytes list_ascii_of_string app].
  rewrite exec_Cap_here, exec_Bol_here, exec_Lit_here.
  apply exec_Star_complete; [assumption|]. rewrite exec_Lit_here.
  apply exec_Star_complete; [assumption|]. rewrite exec_Lit_here.
  apply exec_Star_complete; [assumption|]. rewrite exec_Lit_here.
  apply exec_Star_complete; [assumption|]. rewrite !exec_Lit_here.
  apply exec_Star_complete; [assumption|]. rewrite !exec_Lit_here.
  apply exec_Star_complete; [assumption|]. rewrite exec_Cap_here.
  rewrite <- (app_nil_r t).
  apply exec_Plus_complete; [assumption..|].
  rewrite exec_Cap_here, exec_Eol_here, exec_Cap_here. simpl. discriminate.
Qed.

Lemma cls_prefix_unique (cls : ascii -> bool) (t t' : list ascii) c c' r r' :
  forallb cls t = true -> forallb cls t' = true ->
  cls c = false -> cls c' = false ->
  t ++ c :: r = t' ++ c' :: r' ->
  t = t' /\ c :: r = c' :: r'.
Proof.
  revert t'. induction t as [|x t IH]; intros [|x' t'] Ht Ht' Hc Hc' E; simpl in *.
  - now split.
  - injection E as -> _. apply andb_true_iff in Ht'. destruct Ht'. congruence.
  - injection E as -> _. apply andb_true_iff in Ht. destruct Ht. congruence.
  - injection E as -> E.
    apply andb_true_iff in Ht. apply andb_true_iff in Ht'.
    destruct (IH t' (proj2 Ht) (proj2 Ht') Hc Hc' E) as [-> ?]. now split.
Qed.

Lemma forallb_app_last (cls : ascii -> bool) (w : list ascii) (c : ascii) (r : list ascii) :
  forallb cls (w ++ c :: r) = true -> cls c = true.
Proof.
  rewrite forallb_app. simpl. intros H.
  apply andb_true_iff in H. destruct H as [_ H].
  apply andb_true_iff in H. tauto.
Qed.

(** The trimmed payload of a line is unique. *)
Lemma payload_unique (w w' p p' : list ascii) :
  forallb space w = true -> forallb space w' = true ->
  payload_trimmed p -> payload_trimmed p' ->
  w ++ p = w' ++ p' -> p = p'.
Proof.
  intros Hw Hw' Hp Hp' E.
  destruct p as [|c r]; [contradiction|]. destruct p' as [|c' r']; [contradiction|].
  simpl in Hp, Hp'.
  destruct (space c) eqn:Hc; destruct (space c') eqn:Hc'.
  - destruct Hp as [Hp| ->]; [discriminate|]. destruct Hp' as [Hp'| ->]; [discriminate|].
    apply app_inj_tail in E. now destruct E as [_ ->].
  - destruct Hp as [Hp| ->]; [discriminate|]. exfalso.
    assert (H : forallb space (w ++ [c]) = true)
      by (rewrite forallb_app; simpl; now rewrite Hw, Hc).
    rewrite E in H. apply forallb_app_last in H. congruence.
  - destruct Hp' as [Hp'| ->]; [discriminate|]. exfalso.
    assert (H : forallb space (w' ++ [c']) = true)
      by (rewrite forallb_app; simpl; now rewrite Hw', Hc').
    rewrite <- E in H. apply forallb_app_last in H. congruence.
  - now apply (cls_prefix_unique space w w' c c' r r').
Qed.

Lemma mixin_line_unique (line p p' : list ascii) :
  mixin_line line p -> payload_trimmed p ->
  mixin_line line p' -> payload_trimmed p' ->
  p = p'.
Proof.
  intros (t1 & w1 & t2 & w2 & t3 & w3 & E & Ht1 & Hw1 & Ht2 & Hw2 & Ht3 & Hw3 & _) Hp.
  intros (t1' & w1' & t2' & w2' & t3' & w3' & E' & Ht1' & Hw1' & Ht2' & Hw2' & Ht3' & Hw3' & _) Hp'.
  rewrite E in E'. clear E. cbn [bytes list_ascii_of_string app] in E'.
  injection E' as E.
  apply cls_prefix_unique with (cls := not_rbracket) in E; try assumption; try reflexivity.
  destruct E as [_ E]. injection E as E.
  apply cls_prefix_unique with (cls := space) in E; try assumption; try reflexivity.
  destruct E as [_ E]. injection E as E.
  apply cls_prefix_unique with (cls := not_rbracket) in E; try assumption; try reflexivity.
  destruct E as [_ E]. injection E as E.
  apply cls_prefix_unique with (cls := space) in E; try assumption; try reflexivity.
  destruct E as [_ E]. injection E as E.
  apply cls_prefix_unique with (cls := not_rbracket) in E; try assumption; try reflexivity.
  destruct E as [_ E]. injection E as E.
  now apply (payload_unique w3 w3').
Qed.

(** [mixinLogRe] on a line: the match is the whole line with the trimmed
    payload of a mixin line, and there is a match exactly when the line is a
    mixin line. *)
Lemma FindSubmatch_mixinLogRe_Some (line p : list ascii) :
  FindSubmatch mixinLogRe line = Some [line; p]
  <-> mixin_line line p /\ payload_trimmed p.
Proof.
  split.
  - intros H. apply FindSubmatch_mixinLogRe_inv in H.
    destruct H as (p' & E & Hm & Ht). injection E as <-. now split.
  - intros [Hm Ht].
    destruct (FindSubmatch mixinLogRe line) as [m|] eqn:H.
    + apply FindSubmatch_mixinLogRe_inv in H.
      destruct H as (p' & -> & Hm' & Ht').
      now rewrite (mixin_line_unique line p p' Hm Ht Hm' Ht').
    + exfalso. now apply (FindSubmatch_mixinLogRe_complete line p Hm).
Qed.

Lemma FindSubmatch_mixinLogRe_None (line : list ascii) :
  FindSubmatch mixinLogRe line = None <-> ~ exists p, mixin_line line p.
Proof.
  split.
  - intros H [p Hm]. now apply (FindSubmatch_mixinLogRe_complete line p Hm).
  - intros Hn. destruct (FindSubmatch mixinLogRe line) as [m|] eqn:H; [|reflexivity].
    exfalso. apply Hn. apply FindSubmatch_mixinLogRe_inv in H.
    destruct H as (p & _ & Hm & _). now exists p.
Qed.

(* ------------------------------------------------------------------ *)
(** ** The recorder *)

Lemma IndexByte_ge (s : list ascii) (c : ascii) : (-1 <= IndexByte s c)%Z.
Proof.
  induction s as [|x s IH]; simpl; [lia|].
  destruct (Ascii.eqb x c); [lia|].
  destruct (Z.ltb_spec (IndexByte s c) 0); lia.
Qed.

Lemma IndexByte_absent (s : list ascii) :
  (IndexByte s newline < 0)%Z -> no_newline s = true.
Proof.
  induction s as [|x s IH]; simpl; [reflexivity|].
  destruct (Ascii.eqb x newline); [lia|]. simpl.
  destruct (Z.ltb_spec (IndexByte s newline) 0); [intros _; now apply IH|].
  lia.
Qed.

Lemma IndexByte_present (s : list ascii) :
  (0 <= IndexByte s newline)%Z ->
  exists l s',
    s = l ++ newline :: s' /\ no_newline l = true /\
    IndexByte s newline = Z.of_nat (List.length l).
Proof.
  induction s as [|x s IH]; simpl; [lia|].
  destruct (Ascii.eqb_spec x newline) as [->|Hx].
  - intros _. now exists [], s.
  - destruct (Z.ltb_spec (IndexByte s newline) 0) as [|Hge]; [lia|]. intros _.
    destruct (IH Hge) as (l & s' & -> & Hl & E).
    exists (x :: l), s'. simpl. rewrite Hl, E.
    destruct (Ascii.eqb_spec x newline); [contradiction|].
    repeat split. lia.
Qed.

Lemma split_lines_no_newline (s cur : list ascii) :
  no_newline s = true -> split_lines cur s = ([], cur ++ s).
Proof.
  revert cur. induction s as [|x s IH]; intros cur H; simpl in *.
  - now rewrite app_nil_r.
  - apply andb_true_iff in H. destruct H as [Hx Hs].
    destruct (Ascii.eqb x newline); [discriminate|].
    rewrite IH by assumption. now rewrite <- app_assoc.
Qed.

Lemma split_lines_line (l s' cur : list ascii) :
  no_newline l = true ->
  split_lines cur (l ++ newline :: s')
  = (((cur ++ l) :: fst (split_lines [] s')), snd (split_lines [] s')).
Proof.
  revert cur. induction l as [|x l IH]; intros cur H; simpl in *.
  - rewrite app_nil_r. now destruct (split_lines [] s').
  - apply andb_true_iff in H. destruct H as [Hx Hl].
    destruct (Ascii.eqb x newline); [discriminate|].
    rewrite IH by assumption. now rewrite <- app_assoc.
Qed.

(** The loop of [Write] records the complete lines from offset [n] on, in
    order, and stops behind the last line feed. *)
Lemma Write_loop_lines (rbuf : list ascii) :
  forall fuel a n,
  n <= List.length rbuf ->
  List.length rbuf - n < fuel ->
  Write_loop fuel a rbuf (Z.of_nat n)
  = (fold_left record (fst (split_lines [] (skipn n rbuf))) a,
     Z.of_nat (List.length rbuf
               - List.length (snd (split_lines [] (skipn n rbuf))))).
Proof.
  induction fuel as [|fuel IH]; intros a n Hn Hf; [lia|].
  cbn [Write_loop]. rewrite Nat2Z.id.
  pose proof (length_skipn n rbuf) as Hlen.
  destruct (Z.ltb_spec (Z.of_nat n + IndexByte (skipn n rbuf) newline) (Z.of_nat n))
    as [Hlt|Hge].
  - assert (Hnn : no_newline (skipn n rbuf) = true) by (apply IndexByte_absent; lia).
    rewrite (split_lines_no_newline _ [] Hnn). simpl. f_equal. lia.
  - destruct (IndexByte_present (skipn n rbuf)) as (l & s' & E & Hl & Ei); [lia|].
    rewrite Ei. rewrite E. rewrite (split_lines_line l s' [] Hl). simpl.
    assert (Hsub : subslice rbuf (Z.of_nat n) (Z.of_nat n + Z.of_nat (List.length l)) = l).
    { unfold subslice. rewrite Nat2Z.id.
      replace (Z.to_nat (Z.of_nat n + Z.of_nat (List.length l) - Z.of_nat n))
        with (List.length l) by lia.
      rewrite E, firstn_app, firstn_all, Nat.sub_diag. simpl. apply app_nil_r. }
    rewrite Hsub.
    assert (Hl2 : List.length (skipn n rbuf) = List.length l + S (List.length s')).
    { rewrite E, length_app. reflexivity. }
    assert (Hs' : skipn (n + List.length l + 1) rbuf = s').
    { replace (n + List.length l + 1) with (S (List.length l) + n) by lia.
      rewrite <- skipn_skipn, E.
      replace (l ++ newline :: s') with ((l ++ [newline]) ++ s')
        by (now rewrite <- app_assoc).
      rewrite skipn_app.
      replace (S (List.length l)) with (List.length (l ++ [newline]))
        by (rewrite length_app; simpl; lia).
      rewrite skipn_all, Nat.sub_diag. reflexivity. }
    replace (Z.of_nat n + Z.of_nat (List.length l) + 1)%Z
      with (Z.of_nat (n + List.length l + 1)) by lia.
    rewrite IH by lia. now rewrite Hs'.
Qed.

Lemma split_lines_rest_suffix (s : list ascii) :
  forall cur, exists pre, cur ++ s = pre ++ snd (split_lines cur s).
Proof.
  induction s as [|x s IH]; intros cur; simpl.
  - exists []. now rewrite app_nil_r.
  - destruct (Ascii.eqb x newline).
    + destruct (IH []) as [pre E]. simpl in E.
      destruct (split_lines [] s) as [ls rest]. simpl in *.
      exists (cur ++ x :: pre). rewrite E, <- app_assoc. reflexivity.
    + destruct (IH (cur ++ [x])) as [pre E]. exists pre.
      rewrite <- E, <- app_assoc. reflexivity.
Qed.

(** [Write]: the complete lines of what is buffered and written go to
    [record], in order; what follows the last line feed stays buffered. *)
Lemma Write_lines (a : Analyzer) (r : logRecorder) (b : list ascii) :
  Write a r b
  = (fold_left record (fst (split_lines [] (buf r ++ b))) a,
     {| closed := closed r; buf := snd (split_lines [] (buf r ++ b)) |},
     (Z.of_nat (List.length b), None)).
Proof.
  unfold Write. change 0%Z with (Z.of_nat 0).
  rewrite (Write_loop_lines (buf r ++ b) (S (List.length (buf r ++ b))) a 0)
    by lia.
  cbn [skipn]. change (Z.of_nat 0) with 0%Z.
  destruct (split_lines_rest_suffix (buf r ++ b) []) as [pre E]. simpl in E.
  set (rest := snd (split_lines [] (buf r ++ b))) in *.
  assert (Hlen : List.length (buf r ++ b) - List.length rest = List.length pre).
  { rewrite E, length_app. lia. }
  rewrite Hlen, Nat2Z.id.
  assert (Hrest : (if (0 <? Z.of_nat (List.length pre))%Z
                   then skipn (List.length pre) (buf r ++ b) else buf r ++ b) = rest).
  { destruct (Z.ltb_spec 0 (Z.of_nat (List.length pre))).
    - rewrite E, skipn_app, skipn_all, Nat.sub_diag. reflexivity.
    - destruct pre; [exact E|simpl in *; lia]. }
  now rewrite Hrest.
Qed.

Lemma Push_items {A} (r : RingBuffer.t A) (x : A) :
  RingBuffer.items (RingBuffer.Push r x)
  = lastn (RingBuffer.cap r) (RingBuffer.items r ++ [x]).
Proof.
  unfold RingBuffer.Push, lastn. cbn [RingBuffer.items RingBuffer.cap].
  rewrite length_app. cbn [List.length].
  destruct (Nat.ltb_spec (List.length (RingBuffer.items r)) (RingBuffer.cap r)).
  - replace (List.length (RingBuffer.items r) + 1 - RingBuffer.cap r) with 0 by lia.
    reflexivity.
  - f_equal. lia.
Qed.

Lemma lastn_lastn_snoc {A} (n : nat) (l : list A) (x : A) :
  lastn n (lastn n l ++ [x]) = lastn n (l ++ [x]).
Proof.
  unfold lastn. rewrite !length_app, length_skipn. simpl.
  assert (E : skipn (List.length l - n) l ++ [x]
              = skipn (List.length l - n) (l ++ [x])).
  { rewrite skipn_app.
    replace (List.length l - n - List.length l) with 0 by lia. reflexivity. }
  rewrite E, skipn_skipn. f_equal. lia.
Qed.

Lemma lastn_app_lastn {A} (n : nat) (l xs : list A) :
  lastn n (lastn n l ++ xs) = lastn n (l ++ xs).
Proof.
  revert l. induction xs as [|x xs IH]; intros l.
  - rewrite !app_nil_r. unfold lastn. rewrite length_skipn, skipn_skipn. f_equal. lia.
  - replace (lastn n l ++ x :: xs) with ((lastn n l ++ [x]) ++ xs)
      by (now rewrite <- app_assoc).
    replace (l ++ x :: xs) with ((l ++ [x]) ++ xs) by (now rewrite <- app_assoc).
    rewrite <- (IH (l ++ [x])), <- (IH (lastn n l ++ [x])).
    now rewrite lastn_lastn_snoc.
Qed.

Lemma record_kept (lines ps : list (list ascii)) :
  kept lines ps ->
  forall a,
  fold_left record lines a
  = set_recentMixinLogs a
      (fold_left RingBuffer.Push (map string_of_list_ascii ps) (recentMixinLogs a)).
Proof.
  induction 1 as [|line p lines ps Hm Ht _ IH|line lines ps Hn _ IH]; intros a; simpl.
  - now destruct a.
  - unfold record at 2.
    rewrite (proj2 (FindSubmatch_mixinLogRe_Some line p) (conj Hm Ht)).
    rewrite IH. reflexivity.
  - unfold record at 2.
    rewrite (proj2 (FindSubmatch_mixinLogRe_None line) Hn). apply IH.
Qed.

Lemma kept_total (lines : list (list ascii)) : exists ps, kept lines ps.
Proof.
  induction lines as [|line lines [ps IH]]; [exists []; constructor|].
  destruct (FindSubmatch mixinLogRe line) as [m|] eqn:H.
  - apply FindSubmatch_mixinLogRe_inv in H. destruct H as (p & _ & Hm & Ht).
    exists (p :: ps). now constructor.
  - apply FindSubmatch_mixinLogRe_None in H. exists ps. now constructor.
Qed.

Lemma kept_all_mixin (lines ps : list (list ascii)) :
  kept lines ps ->
  Forall (fun line => exists p, mixin_line line p) lines ->
  List.length ps = List.length lines.
Proof.
  induction 1 as [|line p lines ps Hm Ht _ IH|line lines ps Hn _ IH]; intros HF.
  - reflexivity.
  - simpl. f_equal. apply IH. now inversion HF.
  - inversion HF; subst. contradiction.
Qed.

Lemma fold_Push_cap {A} (xs : list A) :
  forall r, RingBuffer.cap (fold_left RingBuffer.Push xs r) = RingBuffer.cap r.
Proof.
  induction xs as [|x xs IH]; intros r; simpl; [reflexivity|].
  now rewrite IH.
Qed.

Lemma fold_Push_items {A} (xs : list A) :
  forall r,
  List.length (RingBuffer.items r) <= RingBuffer.cap r ->
  RingBuffer.items (fold_left RingBuffer.Push xs r)
  = lastn (RingBuffer.cap r) (RingBuffer.items r ++ xs).
Proof.
  induction xs as [|x xs IH]; intros r Hr; simpl.
  - rewrite app_nil_r. unfold lastn.
    replace (List.length (RingBuffer.items r) - RingBuffer.cap r) with 0 by lia.
    reflexivity.
  - rewrite IH.
    + rewrite Push_items. simpl RingBuffer.cap.
      rewrite lastn_app_lastn, <- app_assoc. reflexivity.
    + rewrite Push_items. unfold lastn. rewrite length_skipn, length_app. simpl. lia.
Qed.

(** C9: [Write] hands every complete line to [record], in order.  A line
    leaves a value in the ring exactly when it is a mixin line (three
    bracketed segments, the third starting with [mixin/], then a colon and a
    payload), and the value is the payload behind the colon and its white
    space; other lines leave nothing.  The ring holds 64 values: after the
    payloads [ps] it holds the last 64 of what it held followed by [ps], so
    70 mixin lines written to an empty ring leave the payloads of the last
    64. *)
Theorem Write_keeps_mixin_payloads (a : Analyzer) (r : logRecorder) (b : list ascii)
    (lines : list (list ascii)) (rest : list ascii) :
  RingBuffer.cap (recentMixinLogs a) = 64 ->
  List.length (RingBuffer.items (recentMixinLogs a)) <= 64 ->
  split_lines [] (buf r ++ b) = (lines, rest) ->
  exists ps : list (list ascii),
    kept lines ps /\
    Write a r b
    = (set_recentMixinLogs a
         {| RingBuffer.cap := 64;
            RingBuffer.items :=
              lastn 64 (RingBuffer.items (recentMixinLogs a)
                        ++ map string_of_list_ascii ps) |},
       {| closed := closed r; buf := rest |},
       (Z.of_nat (List.length b), None)) /\
    (RingBuffer.items (recentMixinLogs a) = [] ->
     List.length lines = 70 ->
     Forall (fun line => exists p, mixin_line line p) lines ->
     List.length ps = 70 /\
     RingBuffer.items (recentMixinLogs (fst (fst (Write a r b))))
     = skipn 6 (map string_of_list_ascii ps)).
Proof.
  intros Hcap Hlen Hsplit.
  destruct (kept_total lines) as [ps Hk]. exists ps.
  assert (HW : Write a r b
               = (set_recentMixinLogs a
                    {| RingBuffer.cap := 64;
                       RingBuffer.items :=
                         lastn 64 (RingBuffer.items (recentMixinLogs a)
                                   ++ map string_of_list_ascii ps) |},
                  {| closed := closed r; buf := rest |},
                  (Z.of_nat (List.length b), None))).
  { rewrite Write_lines, Hsplit. cbn [fst snd].
    rewrite (record_kept lines ps Hk a). do 3 f_equal.
    pose proof (fold_Push_cap (map string_of_list_ascii ps) (recentMixinLogs a)) as Hc.
    pose proof (fold_Push_items (map string_of_list_ascii ps) (recentMixinLogs a)) as Hi.
    rewrite Hcap in Hc, Hi. specialize (Hi Hlen).
    destruct (fold_left RingBuffer.Push _ _) as [c its]. simpl in Hc, Hi.
    now subst. }
  split; [exact Hk|]. split; [exact HW|].
  intros Hempty H70 Hall.
  pose proof (kept_all_mixin lines ps Hk Hall) as Hps. rewrite H70 in Hps.
  split; [exact Hps|].
  rewrite HW. cbn [fst set_recentMixinLogs recentMixinLogs RingBuffer.items].
  rewrite Hempty. cbn [app]. unfold lastn. now rewrite length_map, Hps.
Qed.

Lemma sample_line_mixin (i : nat) :
  mixin_line (sample_line i) (sample_payload i) /\
  payload_trimmed (sample_payload i).
Proof.
  split.
  - exists (bytes "12:00:00"), (bytes " "), (bytes "main/INFO"), (bytes " "),
           [], (bytes " ").
    repeat split; try reflexivity; try discriminate.
    unfold sample_payload. generalize (S i) as n.
    induction n as [|n IH]; [reflexivity|exact IH].
  - now left.
Qed.

Lemma split_lines_sample_log (n : nat) :
  forall k, split_lines []
              (flat_map (fun i => sample_line i ++ [newline]) (seq k n))
            = (map sample_line (seq k n), []).
Proof.
  induction n as [|n IH]; intros k; [reflexivity|].
  cbn [seq flat_map map]. rewrite <- app_assoc. cbn [app].
  rewrite split_lines_line.
  - now rewrite IH.
  - unfold sample_line, sample_payload, no_newline. rewrite forallb_app.
    apply andb_true_iff. split; [reflexivity|].
    generalize (S k) as m. induction m as [|m IHm]; [reflexivity|exact IHm].
Qed.

(** Seventy sample lines written in one piece to a new recorder: 64 values
    stay. *)
Lemma Write_keeps_mixin_payloads_witness :
  let a := fst (newLogRecorder NewAnalyzer) in
  let r := snd (newLogRecorder NewAnalyzer) in
  List.length
    (RingBuffer.items (recentMixinLogs (fst (fst (Write a r (sample_log 70))))))
  = 64.
Proof.
  intros a r.
  destruct (Write_keeps_mixin_payloads a r (sample_log 70)
              (map sample_line (seq 0 70)) [] eq_refl (Nat.le_0_l 64)
              (split_lines_sample_log 70 0)) as [ps [_ [_ H]]].
  destruct H as [Hps ->].
  - reflexivity.
  - now rewrite length_map, length_seq.
  - apply Forall_forall. intros l Hin. apply in_map_iff in Hin.
    destruct Hin as [i [<- _]]. exists (sample_payload i).
    apply sample_line_mixin.
  - rewrite length_skipn, length_map, Hps. reflexivity.
Defined.

(** The same run, evaluated: the payloads of lines 6 to 69 stay, oldest
    first; a line that is not a mixin line leaves nothing. *)
Example Write_sample_log_70 :
  RingBuffer.items
    (recentMixinLogs
       (fst (fst (Write (fst (newLogRecorder NewAnalyzer))
                        (snd (newLogRecorder NewAnalyzer)) (sample_log 70)))))
  = map (fun i => string_of_list_ascii (sample_payload i)) (seq 6 64).
Proof. vm_compute. reflexivity. Qed.

Example record_not_mixin :
  record NewAnalyzer (bytes "[12:00:00] [main/INFO] [minecraft/]: Hello") = NewAnalyzer.
Proof. vm_compute. reflexivity. Qed.

Example record_mixin :
  RingBuffer.items
    (recentMixinLogs
       (record NewAnalyzer (bytes "[12:00:00] [main/INFO] [mixin/]:   Hello ")))
  = ["Hello "%string].
Proof. vm_compute. reflexivity. Qed.

(* ------------------------------------------------------------------ *)
(** ** Concurrent calls of [getErrors] *)

(** A cached set stamped inside a window of one hour is fresh for every
    clock reading of that window. *)
Lemma needUpdate_fresh (a : Analyzer) (lo now : Time) :
  (0 < lo)%Z ->
  (lo <= lastUpdateErr a <= lo + Hour)%Z ->
  (lo <= now <= lo + Hour)%Z ->
  needUpdate a now = false.
Proof.
  intros Hlo Ha Hn. unfold needUpdate, IsZero, After, Add.
  apply orb_false_iff. split.
  - apply Z.eqb_neq. lia.
  - apply Z.ltb_ge. lia.
Qed.

Lemma set_pc_same f tid p : Conc.set_pc f tid p tid = p.
Proof. unfold Conc.set_pc. now rewrite Nat.eqb_refl. Qed.

Lemma set_pc_other f tid p t : t <> tid -> Conc.set_pc f tid p t = f t.
Proof.
  intros H. unfold Conc.set_pc. now destruct (Nat.eqb_spec t tid).
Qed.

(** Moving one goroutine between two places outside (or inside) the write
    section keeps the lock discipline. *)
Lemma mutex_goto (st : Conc.state) (tid : nat) (p : Conc.pc) (w : option nat) :
  (forall t, Conc.in_write (Conc.pcs st t) = true <-> Conc.writer st = Some t) ->
  (Conc.in_write p = true <-> w = Some tid) ->
  (forall t, t <> tid -> (Conc.writer st = Some t <-> w = Some t)) ->
  forall t, Conc.in_write (Conc.set_pc (Conc.pcs st) tid p t) = true <-> w = Some t.
Proof.
  intros Hm Hp Hw t. destruct (Nat.eq_dec t tid) as [->|Hne].
  - now rewrite set_pc_same.
  - rewrite set_pc_other by assumption. rewrite Hm. now apply Hw.
Qed.

Lemma update_pc_elsewhere (st : Conc.state) (tid : nat) (p : Conc.pc) :
  p <> Conc.AtUpdate ->
  (forall t, Conc.pcs st t = Conc.AtUpdate -> Conc.refreshes st = 0) ->
  forall t, Conc.set_pc (Conc.pcs st) tid p t = Conc.AtUpdate -> Conc.refreshes st = 0.
Proof.
  intros Hp H t. destruct (Nat.eq_dec t tid) as [->|Hne].
  - rewrite set_pc_same. intros E. now elim Hp.
  - rewrite set_pc_other by assumption. apply H.
Qed.

Ltac conc_split :=
  unfold conc_inv; cbn [Conc.pcs Conc.writer Conc.refreshes Conc.an];
  split; [|split; [|split]].

Lemma conc_inv_step (lo : Time) (st : Conc.state) (e : Conc.event) :
  (0 < lo)%Z ->
  (lo <= Conc.ev_now e <= lo + Hour)%Z ->
  conc_inv lo st -> conc_inv lo (Conc.step st e).
Proof.
  intros Hlo Hnow Hinv.
  unfold Conc.step.
  destruct (Conc.pcs st (Conc.ev_tid e)) as [ | |nu| | | | | |errs] eqn:Hpc;
    [destruct (Conc.writer st) eqn:Hw; [exact Hinv|]
    | | |
    destruct (Conc.writer st) eqn:Hw; [exact Hinv|];
    destruct (Conc.readers st) eqn:Hrd; [|exact Hinv]
    | | | | | ];
    pose proof Hinv as (Hm & Hr & Hf & Hu).
  - (* RLock *)
    conc_split; try assumption.
    + rewrite <- Hw. apply mutex_goto; try assumption.
      * rewrite Hw. cbn [Conc.in_write]. split; discriminate.
      * intros; reflexivity.
    + apply update_pc_elsewhere; [discriminate|assumption].
  - (* the first test *)
    assert (Hw : Conc.writer st <> Some (Conc.ev_tid e)).
    { intros Hw. apply Hm in Hw. rewrite Hpc in Hw. discriminate. }
    conc_split; try assumption.
    + apply mutex_goto; try assumption; [|intros; reflexivity].
      cbn [Conc.in_write]. split; [discriminate|contradiction].
    + apply update_pc_elsewhere; [discriminate|assumption].
  - (* RUnlock *)
    assert (Hw : Conc.writer st <> Some (Conc.ev_tid e)).
    { intros Hw. apply Hm in Hw. rewrite Hpc in Hw. discriminate. }
    conc_split; try assumption.
    + apply mutex_goto; try assumption; [|intros; reflexivity].
      split; [destruct nu; cbn [Conc.in_write]; discriminate|contradiction].
    + apply update_pc_elsewhere; [destruct nu; discriminate|assumption].
  - (* Lock *)
    conc_split; try assumption.
    + apply mutex_goto; try assumption.
      * split; reflexivity.
      * intros t Ht. rewrite Hw. split; [discriminate|congruence].
    + apply update_pc_elsewhere; [discriminate|assumption].
  - (* the second test *)
    assert (Hw : Conc.writer st = Some (Conc.ev_tid e)).
    { apply Hm. now rewrite Hpc. }
    conc_split; try assumption.
    + apply mutex_goto; try assumption; [|intros; reflexivity].
      split; [intros _; exact Hw|now destruct (needUpdate _ _)].
    + intros t. destruct (Nat.eq_dec t (Conc.ev_tid e)) as [->|Hne].
      * rewrite set_pc_same. intros Hup.
        destruct (needUpdate (Conc.an st) (Conc.ev_now e)) eqn:Hn; [|discriminate].
        destruct (Nat.eq_dec (Conc.refreshes st) 1) as [H1|H1]; [|lia].
        rewrite (needUpdate_fresh (Conc.an st) lo (Conc.ev_now e) Hlo (Hf H1) Hnow) in Hn.
        discriminate.
      * rewrite set_pc_other by assumption. apply Hu.
  - (* updateErrorsLocked *)
    assert (Hw : Conc.writer st = Some (Conc.ev_tid e)).
    { apply Hm. now rewrite Hpc. }
    pose proof (Hu _ Hpc) as H0.
    assert (Hothers : forall t, Conc.set_pc (Conc.pcs st) (Conc.ev_tid e) Conc.AtUnlock t
                                = Conc.AtUpdate -> False).
    { intros t. destruct (Nat.eq_dec t (Conc.ev_tid e)) as [->|Hne].
      - rewrite set_pc_same. discriminate.
      - rewrite set_pc_other by assumption. intros Hup.
        assert (Ht : Conc.writer st = Some t) by (apply Hm; now rewrite Hup).
        congruence. }
    destruct (db_result (Conc.ev_db e)) as [err|] eqn:Hdb.
    + rewrite (updateErrorsLocked_fail _ _ _ err Hdb).
      conc_split; try assumption.
      * apply mutex_goto; try assumption; [|intros; reflexivity].
        split; [intros _; exact Hw|reflexivity].
      * intros t Ht. now apply Hothers in Ht.
    + rewrite (updateErrorsLocked_ok _ _ _ Hdb).
      conc_split; cbn [lastUpdateErr]; try lia.
      * apply mutex_goto; try assumption; [|intros; reflexivity].
        split; [intros _; exact Hw|reflexivity].
      * intros t Ht. now apply Hothers in Ht.
  - (* Unlock *)
    assert (Hw : Conc.writer st = Some (Conc.ev_tid e)).
    { apply Hm. now rewrite Hpc. }
    conc_split; try assumption.
    + apply mutex_goto; try assumption.
      * cbn [Conc.in_write]. split; discriminate.
      * intros t Ht. rewrite Hw. split; [congruence|discriminate].
    + apply update_pc_elsewhere; [discriminate|assumption].
  - (* return *)
    assert (Hw : Conc.writer st <> Some (Conc.ev_tid e)).
    { intros Hw. apply Hm in Hw. rewrite Hpc in Hw. discriminate. }
    conc_split; try assumption.
    + apply mutex_goto; try assumption; [|intros; reflexivity].
      cbn [Conc.in_write]. split; [discriminate|contradiction].
    + apply update_pc_elsewhere; [discriminate|assumption].
  - exact Hinv.
Qed.

Lemma conc_inv_init (lo : Time) (a : Analyzer) : conc_inv lo (Conc.init a).
Proof.
  unfold conc_inv, Conc.init. cbn. repeat split; try discriminate; lia.
Qed.

Lemma conc_inv_run (lo : Time) (sched : list Conc.event) :
  (0 < lo)%Z ->
  Forall (fun e => (lo <= Conc.ev_now e <= lo + Hour)%Z) sched ->
  forall st, conc_inv lo st -> conc_inv lo (Conc.run sched st).
Proof.
  intros Hlo Hs. induction Hs as [|e sched He _ IH]; intros st Hinv.
  - exact Hinv.
  - apply IH. now apply conc_inv_step.
Qed.

(** While the repository answers without error, every call of
    [ForEachErrors] replaces the set. *)
Lemma fetches_refreshes_step (st : Conc.state) (e : Conc.event) :
  db_result (Conc.ev_db e) = None ->
  Conc.fetches st = Conc.refreshes st ->
  Conc.fetches (Conc.step st e) = Conc.refreshes (Conc.step st e).
Proof.
  intros Hdb H. unfold Conc.step.
  destruct (Conc.pcs st (Conc.ev_tid e)); try exact H.
  - now destruct (Conc.writer st).
  - destruct (Conc.writer st); [exact H|]. now destruct (Conc.readers st).
  - rewrite (updateErrorsLocked_ok _ _ _ Hdb). cbn. now rewrite H.
Qed.

Lemma fetches_refreshes_run (sched : list Conc.event) :
  Forall (fun e => db_result (Conc.ev_db e) = None) sched ->
  forall st, Conc.fetches st = Conc.refreshes st ->
  Conc.fetches (Conc.run sched st) = Conc.refreshes (Conc.run sched st).
Proof.
  intros Hs. induction Hs as [|e sched He _ IH]; intros st H.
  - exact H.
  - apply IH. now apply fetches_refreshes_step.
Qed.

(** C7, as the code has it: for calls of [getErrors] interleaved in any
    way while the clock stays within one hour, at most one refresh replaces
    the cached set, and when the repository does not fail at most one
    enumeration of the repository is made.  (A refresh that fails leaves the
    set stale, and every waiting caller tries again.) *)
Theorem getErrors_single_refresh (a : Analyzer) (sched : list Conc.event) (lo : Time) :
  (0 < lo)%Z ->
  Forall (fun e => (lo <= Conc.ev_now e <= lo + Hour)%Z) sched ->
  Conc.refreshes (Conc.run sched (Conc.init a)) <= 1 /\
  (Forall (fun e => db_result (Conc.ev_db e) = None) sched ->
   Conc.fetches (Conc.run sched (Conc.init a)) <= 1).
Proof.
  intros Hlo Hs.
  pose proof (conc_inv_run lo sched Hlo Hs (Conc.init a) (conc_inv_init lo a))
    as (_ & Hr & _).
  split; [exact Hr|].
  intros Hdb. now rewrite (fetches_refreshes_run sched Hdb (Conc.init a) eq_refl).
Qed.

Lemma Forall_sched_of (P : Conc.event -> Prop) (db : ErrorDB) (now : Time)
    (tids : list nat) :
  (forall t, P (Conc.mkEvent t now db)) -> Forall P (Conc.sched_of db now tids).
Proof.
  intros H. unfold Conc.sched_of. apply Forall_forall. intros e Hin.
  apply in_map_iff in Hin. destruct Hin as [t [<- _]]. apply H.
Qed.

(** Three goroutines find the set stale at the same time; the repository
    answers. *)
Lemma getErrors_single_refresh_witness :
  let db := {| db_visits := [ {| Error := "a.B"; Message := "m"; Solutions := [] |} ];
               db_result := None |} in
  let sched := Conc.sched_of db 1000%Z
                 [0; 1; 2; 0; 1; 2; 0; 1; 2;  1; 1; 1; 1;  0; 0; 2; 2; 0; 1; 2] in
  Conc.refreshes (Conc.run sched (Conc.init NewAnalyzer)) <= 1 /\
  Conc.fetches (Conc.run sched (Conc.init NewAnalyzer)) <= 1.
Proof.
  intros db sched.
  destruct (getErrors_single_refresh NewAnalyzer sched 1000%Z eq_refl) as [H1 H2].
  - apply Forall_sched_of. intros t. cbn. unfold Hour. lia.
  - split; [exact H1|]. apply H2. apply Forall_sched_of. reflexivity.
Defined.

Example getErrors_three_callers :
  let e := {| Error := "a.B"; Message := "m"; Solutions := [] |} in
  let db := {| db_visits := [e]; db_result := None |} in
  let sched := Conc.sched_of db 1000%Z
                 [0; 1; 2; 0; 1; 2; 0; 1; 2;  1; 1; 1; 1;  0; 0; 2; 2; 0; 1; 2; 0; 2; 2; 2] in
  let st := Conc.run sched (Conc.init NewAnalyzer) in
  Conc.fetches st = 1 /\
  Conc.pcs st 0 = Conc.Returned (Some [e]) /\
  Conc.pcs st 1 = Conc.Returned (Some [e]) /\
  Conc.pcs st 2 = Conc.Returned (Some [e]).
Proof. vm_compute. repeat split. Qed.

(** C7 as stated fails when the repository fails: two goroutines find the
    set stale under the read lock, and each of them, in its turn under the
    write lock, finds it stale again and enumerates the repository. *)
Lemma getErrors_two_fetches :
  let db := {| db_visits := []; db_result := Some (ErrOther "fetch failed") |} in
  let both_stale := Conc.sched_of db 1000%Z [0; 1; 0; 1; 0; 1] in
  let sched := both_stale ++ Conc.sched_of db 1000%Z [0; 0; 0; 0; 1; 1; 1; 1; 0; 1] in
  let st := Conc.run sched (Conc.init NewAnalyzer) in
  Conc.pcs (Conc.run both_stale (Conc.init NewAnalyzer)) 0 = Conc.AtLock /\
  Conc.pcs (Conc.run both_stale (Conc.init NewAnalyzer)) 1 = Conc.AtLock /\
  Conc.fetches st = 2 /\
  Conc.refreshes st = 0 /\
  Conc.pcs st 0 = Conc.Returned None /\
  Conc.pcs st 1 = Conc.Returned None /\
  ~ Conc.fetches st <= 1.
Proof.
  vm_compute. repeat split. intros H.
  apply (Nat.nle_succ_diag_l 1). exact H.
Qed.

(** One goroutine running alone does what [getErrors] does. *)
Lemma Conc_alone (a : Analyzer) (db : ErrorDB) (clk : Clock) :
  let sched :=
    [Conc.mkEvent 0 0%Z db; Conc.mkEvent 0 (now_rlock clk) db; Conc.mkEvent 0 0%Z db;
     Conc.mkEvent 0 0%Z db; Conc.mkEvent 0 (now_lock clk) db;
     Conc.mkEvent 0 (now_update clk) db; Conc.mkEvent 0 0%Z db; Conc.mkEvent 0 0%Z db] in
  let st := Conc.run sched (Conc.init a) in
  Conc.pcs st 0 = Conc.Returned (fst (getErrors a db clk)) /\
  Conc.an st = snd (getErrors a db clk).
Proof.
  unfold getErrors. cbn.
  destruct (needUpdate a (now_rlock clk)); cbn; [|now split].
  destruct (needUpdate a (now_lock clk)); cbn.
  - destruct (updateErrorsLocked a db (now_update clk)) as [a' err]. cbn. now split.
  - now split.
Qed.

(* ------------------------------------------------------------------ *)
(** ** The stream pipeline *)

Lemma chain_unfold (j : JavaError) : chain j = j :: chain_opt (CausedBy j).
Proof. now destruct j as [c m [j'|]]. Qed.

Lemma nth_error_set_task_same ts tid t :
  nth_error (Pipe.set_task ts tid t) tid
  = option_map (fun p => (fst p, t)) (nth_error ts tid).
Proof.
  revert tid. induction ts as [|[top t0] ts IH]; intros [|tid]; simpl; try reflexivity.
  apply IH.
Qed.

Lemma nth_error_set_task_other ts tid t tid' :
  tid' <> tid -> nth_error (Pipe.set_task ts tid t) tid' = nth_error ts tid'.
Proof.
  revert tid tid'. induction ts as [|[top t0] ts IH]; intros [|tid] [|tid'] H;
    simpl; try reflexivity; try contradiction.
  apply IH. congruence.
Qed.

Lemma length_set_task ts tid t : List.length (Pipe.set_task ts tid t) = List.length ts.
Proof.
  revert tid. induction ts as [|[top t0] ts IH]; intros [|tid]; simpl; try reflexivity.
  now rewrite IH.
Qed.

Lemma task_at_Some ts tid t :
  Pipe.task_at ts tid = Some t ->
  exists top, nth_error ts tid = Some (top, t) /\ tid < List.length ts.
Proof.
  unfold Pipe.task_at. destruct (nth_error ts tid) as [[top t']|] eqn:H; [|discriminate].
  simpl. intros E. injection E as ->. exists top. split; [reflexivity|].
  apply nth_error_Some. now rewrite H.
Qed.

Lemma sent_by_app tid tr tr' :
  Pipe.sent_by tid (tr ++ tr') = Pipe.sent_by tid tr ++ Pipe.sent_by tid tr'.
Proof. unfold Pipe.sent_by. apply flat_map_app. Qed.

Lemma sent_app tr tr' : Pipe.sent (tr ++ tr') = Pipe.sent tr ++ Pipe.sent tr'.
Proof. unfold Pipe.sent. apply flat_map_app. Qed.

Lemma cancel_not_None c cur : Pipe.cancel c cur <> None.
Proof. now destruct cur. Qed.

Lemma cancel_keeps c cur : cur <> None -> Pipe.cancel c cur <> None.
Proof. intros _. apply cancel_not_None. Qed.

(** [task_ok] only depends on what the goroutine has sent, and survives
    cancellation. *)
Lemma task_ok_mono c c' tr tr' tid p :
  (c <> None -> c' <> None) ->
  Pipe.sent_by tid tr' = Pipe.sent_by tid tr ->
  task_ok c tr tid p -> task_ok c' tr' tid p.
Proof.
  intros Hc Hs. unfold task_ok. rewrite Hs.
  destruct (snd p); try trivial. intros [Hex [H|H]]; (split; [exact Hex|]);
    [left; auto|now right].
Qed.

Lemma tasks_inv_same (st st' : Pipe.state) :
  Pipe.tasks st' = Pipe.tasks st ->
  (Pipe.ctx st <> None -> Pipe.ctx st' <> None) ->
  (forall tid, Pipe.sent_by tid (Pipe.trace st') = Pipe.sent_by tid (Pipe.trace st)) ->
  tasks_inv st -> tasks_inv st'.
Proof.
  intros Ht Hc Hs [H1 H2]. split.
  - intros tid p Hp. rewrite Ht in Hp.
    apply (task_ok_mono (Pipe.ctx st) (Pipe.ctx st') (Pipe.trace st)); auto.
  - intros tid Hl. rewrite Ht in Hl. rewrite Hs. auto.
Qed.

(** One goroutine moves without sending. *)
Lemma tasks_inv_move (st st' : Pipe.state) (tid : nat) (top : JavaError) (t t' : Pipe.task) :
  nth_error (Pipe.tasks st) tid = Some (top, t) ->
  Pipe.tasks st' = Pipe.set_task (Pipe.tasks st) tid t' ->
  (Pipe.ctx st <> None -> Pipe.ctx st' <> None) ->
  Pipe.trace st' = Pipe.trace st ->
  (task_ok (Pipe.ctx st) (Pipe.trace st) tid (top, t) ->
   task_ok (Pipe.ctx st') (Pipe.trace st) tid (top, t')) ->
  tasks_inv st -> tasks_inv st'.
Proof.
  intros Hn Ht Hc Htr Hmove [H1 H2]. split.
  - intros tid' p Hp. rewrite Ht in Hp. rewrite Htr.
    destruct (Nat.eq_dec tid' tid) as [->|Hne].
    + rewrite nth_error_set_task_same, Hn in Hp. simpl in Hp. injection Hp as <-.
      apply Hmove. now apply H1.
    + rewrite nth_error_set_task_other in Hp by assumption.
      apply (task_ok_mono (Pipe.ctx st) (Pipe.ctx st') (Pipe.trace st)); auto.
  - intros tid' Hl. rewrite Ht, length_set_task in Hl. rewrite Htr. auto.
Qed.

Section PipelineProperties.

Variable HardCodedChecks : Analyzer -> JavaError -> option ErrorDesc * option error.
Variable split : string -> ascii -> string * string.
Variable lineMatchPercent : string -> string -> float32.

Let step_ := Pipe.step HardCodedChecks split lineMatchPercent.
Let run_ := Pipe.run HardCodedChecks split lineMatchPercent.

Lemma tasks_inv_step (st : Pipe.state) (act : Pipe.action) :
  tasks_inv st -> tasks_inv (step_ st act).
Proof.
  intros Hinv. unfold step_, Pipe.step.
  destruct (Pipe.panicked st); [exact Hinv|].
  destruct act as [ | | | |tid clk db|tid|tid| | |b].
  - (* MainRecv *)
    destruct (Pipe.main_pc st); try exact Hinv.
    destruct (Pipe.resCh st) as [|[jerr|] rest]; try exact Hinv.
    destruct Hinv as [H1 H2]. split; cbn [Pipe.tasks Pipe.ctx Pipe.trace].
    + intros tid p Hp.
      destruct (Nat.lt_ge_cases tid (List.length (Pipe.tasks st))) as [Hlt|Hge].
      * rewrite nth_error_app1 in Hp by assumption. now apply H1.
      * rewrite nth_error_app2 in Hp by assumption.
        destruct (tid - List.length (Pipe.tasks st)) as [|n] eqn:E;
          [|destruct n; discriminate Hp].
        injection Hp as <-. unfold task_ok. cbn [fst snd chain_opt].
        now rewrite (H2 tid Hge).
    + intros tid Hl. rewrite length_app in Hl. apply H2. simpl in Hl. lia.
  - (* MainErr *)
    destruct (Pipe.main_pc st); try exact Hinv.
    destruct (Pipe.errCh st); try exact Hinv.
    apply (tasks_inv_same st); cbn [Pipe.main_return Pipe.tasks Pipe.ctx Pipe.trace];
      auto using cancel_keeps.
    intros tid. rewrite sent_by_app. simpl. apply app_nil_r.
  - (* MainCtxDone *)
    destruct (Pipe.main_pc st); try exact Hinv.
    destruct (Pipe.ctx st) eqn:Hc; try exact Hinv.
    apply (tasks_inv_same st); cbn [Pipe.main_return Pipe.tasks Pipe.ctx Pipe.trace];
      auto.
    + now rewrite Hc.
    + intros tid. rewrite sent_by_app. simpl. apply app_nil_r.
  - (* MainWaited *)
    destruct (Pipe.main_pc st); try exact Hinv.
    destruct (Pipe.all_done (Pipe.tasks st)); try exact Hinv.
    apply (tasks_inv_same st); cbn [Pipe.main_return Pipe.tasks Pipe.ctx Pipe.trace];
      auto.
    intros tid. rewrite sent_by_app. simpl. apply app_nil_r.
  - (* TaskStep *)
    destruct (Pipe.task_at (Pipe.tasks st) tid) as [[[jerr|]|res jerr|]|] eqn:Ht;
      try exact Hinv.
    + apply task_at_Some in Ht. destruct Ht as (top & Hn & _).
      destruct (DoError _ _ _ _ _ _ _) as [[matched [err|]] a'].
      * apply (tasks_inv_move st _ tid top (Pipe.TLoop (Some jerr)) Pipe.TDone);
          cbn [Pipe.with_tasks Pipe.tasks Pipe.ctx Pipe.trace]; auto using cancel_keeps.
        unfold task_ok. cbn [snd fst chain_opt]. intros H. split.
        -- now exists (chain jerr).
        -- left. apply cancel_not_None.
      * apply (tasks_inv_move st _ tid top (Pipe.TLoop (Some jerr))
                 (Pipe.TSelect {| RError := jerr; Matched := matched; File := "" |} jerr));
          cbn [Pipe.with_tasks Pipe.tasks Pipe.ctx Pipe.trace]; auto.
        unfold task_ok. cbn [snd fst chain_opt RError]. now split.
    + apply task_at_Some in Ht. destruct Ht as (top & Hn & _).
      apply (tasks_inv_move st _ tid top (Pipe.TLoop None) Pipe.TDone);
        cbn [Pipe.with_tasks Pipe.tasks Pipe.ctx Pipe.trace]; auto.
      unfold task_ok. cbn [snd fst chain_opt]. intros H. split.
      * now exists [].
      * right. now rewrite app_nil_r in H.
  - (* TaskSend *)
    destruct (Pipe.task_at (Pipe.tasks st) tid) as [[oj|res jerr|]|] eqn:Ht;
      try exact Hinv.
    apply task_at_Some in Ht. destruct Ht as (top & Hn & Hlt).
    destruct (Pipe.closed st).
    + apply (tasks_inv_same st); cbn [Pipe.tasks Pipe.ctx Pipe.trace]; auto.
      intros tid'. rewrite sent_by_app. simpl. apply app_nil_r.
    + destruct (List.length (Pipe.result st) <? Pipe.result_cap); try exact Hinv.
      destruct Hinv as [H1 H2]. split; cbn [Pipe.tasks Pipe.ctx Pipe.trace].
      * intros tid' p Hp. destruct (Nat.eq_dec tid' tid) as [->|Hne].
        -- rewrite nth_error_set_task_same, Hn in Hp. simpl in Hp. injection Hp as <-.
           specialize (H1 tid _ Hn). unfold task_ok in *. cbn [snd fst] in *.
           destruct H1 as [Hres Hch].
           rewrite sent_by_app. cbn [Pipe.sent_by flat_map]. rewrite Nat.eqb_refl.
           rewrite map_app. cbn [map app]. rewrite Hres, <- app_assoc. cbn [app].
           now rewrite <- chain_unfold.
        -- rewrite nth_error_set_task_other in Hp by assumption.
           apply (task_ok_mono (Pipe.ctx st) (Pipe.ctx st) (Pipe.trace st)); auto.
           rewrite sent_by_app. cbn [Pipe.sent_by flat_map].
           destruct (Nat.eqb_spec tid tid'); [congruence|]. now rewrite !app_nil_r.
      * intros tid' Hl. rewrite length_set_task in Hl. rewrite sent_by_app.
        cbn [Pipe.sent_by flat_map].
        destruct (Nat.eqb_spec tid tid'); [lia|]. rewrite !app_nil_r. now apply H2.
  - (* TaskCtxDone *)
    destruct (Pipe.task_at (Pipe.tasks st) tid) as [[oj|res jerr|]|] eqn:Ht;
      try exact Hinv.
    destruct (Pipe.ctx st) eqn:Hc; try exact Hinv.
    apply task_at_Some in Ht. destruct Ht as (top & Hn & _).
    apply (tasks_inv_move st _ tid top (Pipe.TSelect res jerr) Pipe.TDone);
      cbn [Pipe.with_tasks Pipe.tasks Pipe.ctx Pipe.trace]; auto.
    + now rewrite Hc.
    + unfold task_ok. cbn [snd fst]. intros [_ H]. split.
      * now exists (chain jerr).
      * left. discriminate.
  - (* Consume *)
    destruct (Pipe.result st); exact Hinv.
  - (* ParentCancel *)
    apply (tasks_inv_same st); cbn [Pipe.with_tasks Pipe.tasks Pipe.ctx Pipe.trace];
      auto using cancel_keeps.
  - (* Tee *)
    destruct (Write (Pipe.an st) (Pipe.recorder st) b) as [[a' r'] n].
    exact Hinv.
Qed.

Lemma all_done_task_at ts tid t :
  Pipe.all_done ts = true -> Pipe.task_at ts tid = Some t -> t = Pipe.TDone.
Proof.
  unfold Pipe.all_done, Pipe.task_at. intros Hall Ht.
  destruct (nth_error ts tid) as [p|] eqn:Hn; [|discriminate].
  simpl in Ht. injection Ht as <-.
  apply nth_error_In in Hn. rewrite forallb_forall in Hall.
  specialize (Hall p Hn). now destruct (snd p).
Qed.

(** A step that leaves the channel and its history alone. *)
Lemma trace_inv_quiet (st st' : Pipe.state) :
  Pipe.closed st' = Pipe.closed st ->
  Pipe.trace st' = Pipe.trace st ->
  Pipe.panicked st' = Pipe.panicked st ->
  Pipe.result st' = Pipe.result st ->
  Pipe.received st' = Pipe.received st ->
  (Pipe.main_pc st' = Pipe.MDone <-> Pipe.main_pc st = Pipe.MDone) ->
  (Pipe.main_pc st = Pipe.MDone ->
   Pipe.ctx st <> None \/ Pipe.all_done (Pipe.tasks st) = true ->
   Pipe.ctx st' <> None \/ Pipe.all_done (Pipe.tasks st') = true) ->
  trace_inv st -> trace_inv st'.
Proof.
  intros Hc Ht Hp Hr Hrc Hm Hd (HA & HB & HC & HD & HE & HF).
  unfold trace_inv. rewrite Hc, Ht, Hp, Hr, Hrc, Hm.
  repeat split; tauto.
Qed.

(** The main goroutine returns from a channel that is still open. *)
Lemma trace_inv_return (st : Pipe.state) (c : option Pipe.cause) (e : option error) :
  Pipe.main_pc st <> Pipe.MDone ->
  Pipe.panicked st = false ->
  c <> None \/ Pipe.all_done (Pipe.tasks st) = true ->
  trace_inv st -> trace_inv (Pipe.main_return st c e).
Proof.
  intros Hm Hp Hd (HA & HB & HC & HD & HE & HF).
  assert (Hcl : Pipe.closed st = false).
  { destruct (Pipe.closed st); [|reflexivity]. exfalso. apply Hm. now apply HA. }
  destruct (HB Hcl) as [Hs _].
  unfold trace_inv, Pipe.main_return.
  cbn [Pipe.main_pc Pipe.closed Pipe.trace Pipe.panicked Pipe.ctx Pipe.tasks
       Pipe.received Pipe.result].
  split; [tauto|]. split; [discriminate|]. split.
  { intros _. exists (Pipe.trace st). split; [exact Hs|]. left. now split. }
  split; [auto|]. split; [|exact HF].
  rewrite sent_app. simpl. now rewrite app_nil_r.
Qed.

Ltac quiet st Hpan :=
  apply (trace_inv_quiet st);
  cbn [Pipe.with_tasks Pipe.main_pc Pipe.ctx Pipe.tasks Pipe.closed Pipe.trace
       Pipe.panicked Pipe.result Pipe.received];
  rewrite ?Hpan; try reflexivity; try assumption.

Lemma trace_inv_step (st : Pipe.state) (act : Pipe.action) :
  trace_inv st -> trace_inv (step_ st act).
Proof.
  intros Hinv. unfold step_, Pipe.step.
  destruct (Pipe.panicked st) eqn:Hpan; [exact Hinv|].
  destruct act as [ | | | |tid clk db|tid|tid| | |b].
  - (* MainRecv *)
    destruct (Pipe.main_pc st) eqn:Hm; try exact Hinv.
    destruct (Pipe.resCh st) as [|[jerr|] rest]; try exact Hinv;
      (quiet st Hpan; [rewrite Hm; split; discriminate | rewrite Hm; discriminate]).
  - (* MainErr *)
    destruct (Pipe.main_pc st) eqn:Hm; try exact Hinv.
    destruct (Pipe.errCh st); try exact Hinv.
    apply trace_inv_return; auto.
    + rewrite Hm. discriminate.
    + left. apply cancel_not_None.
  - (* MainCtxDone *)
    destruct (Pipe.main_pc st) eqn:Hm; try exact Hinv.
    destruct (Pipe.ctx st) eqn:Hc; try exact Hinv.
    apply trace_inv_return; auto.
    + rewrite Hm. discriminate.
    + left. discriminate.
  - (* MainWaited *)
    destruct (Pipe.main_pc st) eqn:Hm; try exact Hinv.
    destruct (Pipe.all_done (Pipe.tasks st)) eqn:Hd; try exact Hinv.
    apply trace_inv_return; auto.
    rewrite Hm. discriminate.
  - (* TaskStep *)
    destruct (Pipe.task_at (Pipe.tasks st) tid) as [[[jerr|]|res jerr|]|] eqn:Ht;
      try exact Hinv.
    + destruct (DoError _ _ _ _ _ _ _) as [[matched [err|]] a'];
        (quiet st Hpan; intros _ [Hc|Hd];
         [left; auto using cancel_keeps
         |apply (all_done_task_at _ _ _ Hd) in Ht; discriminate Ht]).
    + quiet st Hpan.
      intros _ [Hc|Hd]; [now left|].
      apply (all_done_task_at _ _ _ Hd) in Ht. discriminate Ht.
  - (* TaskSend *)
    destruct (Pipe.task_at (Pipe.tasks st) tid) as [[oj|res jerr|]|] eqn:Ht;
      try exact Hinv.
    destruct (Pipe.closed st) eqn:Hcl;
      [|destruct (Nat.ltb_spec (List.length (Pipe.result st)) Pipe.result_cap)
          as [Hlt|Hge]; [|exact Hinv]];
      destruct Hinv as (HA & HB & HC & HD & HE & HF).
    + unfold trace_inv.
      cbn [Pipe.main_pc Pipe.closed Pipe.trace Pipe.panicked Pipe.ctx Pipe.tasks
           Pipe.received Pipe.result].
      rewrite ?Hcl, ?Hpan. rewrite Hcl in HA, HC.
      split; [exact HA|]. split; [discriminate|]. split.
      { intros _. destruct (HC eq_refl) as (pre & Hs & [[Htr _]|(t & _ & Hp)]);
          [|congruence].
        exists pre. split; [exact Hs|]. right. exists tid.
        rewrite Htr, <- app_assoc. now split. }
      split; [exact HD|]. split; [|exact HF].
      rewrite sent_app. simpl. now rewrite app_nil_r.
    + unfold trace_inv.
      cbn [Pipe.main_pc Pipe.closed Pipe.trace Pipe.panicked Pipe.ctx Pipe.tasks
           Pipe.received Pipe.result].
      rewrite ?Hcl, ?Hpan. rewrite Hcl in HA, HB. destruct (HB eq_refl) as [Hs _].
      split; [exact HA|]. split.
      { intros _. split; [|reflexivity]. rewrite forallb_app, Hs. reflexivity. }
      split; [discriminate|]. split.
      { intros Hm. apply HA in Hm. discriminate. }
      split.
      { rewrite sent_app, app_assoc, HE. reflexivity. }
      rewrite length_app. simpl. unfold Pipe.result_cap in *. lia.
  - (* TaskCtxDone *)
    destruct (Pipe.task_at (Pipe.tasks st) tid) as [[oj|res jerr|]|] eqn:Ht;
      try exact Hinv.
    destruct (Pipe.ctx st) eqn:Hc; try exact Hinv.
    quiet st Hpan.
    intros _ _. left. discriminate.
  - (* Consume *)
    destruct (Pipe.result st) as [|res rest] eqn:Hres; try exact Hinv.
    destruct Hinv as (HA & HB & HC & HD & HE & HF).
    unfold trace_inv.
    cbn [Pipe.main_pc Pipe.closed Pipe.trace Pipe.panicked Pipe.ctx Pipe.tasks
         Pipe.received Pipe.result].
    rewrite Hres in *. rewrite Hpan in HB, HC. repeat split; try tauto.
    + rewrite <- app_assoc. exact HE.
    + simpl in HF. lia.
  - (* ParentCancel *)
    quiet st Hpan.
    intros _ _. left. apply cancel_not_None.
  - (* Tee *)
    destruct (Write (Pipe.an st) (Pipe.recorder st) b) as [[a' r'] n].
    quiet st Hpan; tauto.
Qed.

(** [DoError] returns no error, so no task cancels the context. *)
Lemma cause_inv_step (st : Pipe.state) (act : Pipe.action) :
  cause_inv st -> cause_inv (step_ st act).
Proof.
  intros Hinv. unfold step_, Pipe.step.
  destruct (Pipe.panicked st); [exact Hinv|].
  destruct act as [ | | | |tid clk db|tid|tid| | |b].
  - destruct (Pipe.main_pc st); try exact Hinv.
    destruct (Pipe.resCh st) as [|[jerr|] rest]; exact Hinv.
  - destruct (Pipe.main_pc st); try exact Hinv.
    destruct (Pipe.errCh st); try exact Hinv.
    intros err. cbn. specialize (Hinv err). destruct (Pipe.ctx st); [exact Hinv|discriminate].
  - destruct (Pipe.main_pc st); try exact Hinv.
    destruct (Pipe.ctx st) eqn:Hc; try exact Hinv.
    intros err. cbn. rewrite <- Hc. apply Hinv.
  - destruct (Pipe.main_pc st); try exact Hinv.
    destruct (Pipe.all_done (Pipe.tasks st)); exact Hinv.
  - destruct (Pipe.task_at (Pipe.tasks st) tid) as [[[jerr|]|res jerr|]|];
      try exact Hinv.
    pose proof (DoError_err_nil HardCodedChecks split lineMatchPercent
                  (Pipe.an st) db clk jerr) as Hnil.
    destruct (DoError _ _ _ _ _ _ _) as [[matched [err|]] a']; [discriminate Hnil|].
    exact Hinv.
  - destruct (Pipe.task_at (Pipe.tasks st) tid) as [[oj|res jerr|]|]; try exact Hinv.
    destruct (Pipe.closed st); try exact Hinv.
    destruct (List.length (Pipe.result st) <? Pipe.result_cap); exact Hinv.
  - destruct (Pipe.task_at (Pipe.tasks st) tid) as [[oj|res jerr|]|]; try exact Hinv.
    destruct (Pipe.ctx st) eqn:Hc; try exact Hinv.
    intros err. cbn. rewrite <- Hc. apply Hinv.
  - destruct (Pipe.result st); exact Hinv.
  - intros err. cbn. specialize (Hinv err). destruct (Pipe.ctx st); [exact Hinv|discriminate].
  - destruct (Write (Pipe.an st) (Pipe.recorder st) b) as [[a' r'] n]. exact Hinv.
Qed.

Lemma pipe_inv_init (a : Analyzer) (res : list (option JavaError)) (err : option error) :
  tasks_inv (Pipe.init a res err) /\ trace_inv (Pipe.init a res err)
  /\ cause_inv (Pipe.init a res err).
Proof.
  unfold Pipe.init, tasks_inv, trace_inv, cause_inv. cbn. repeat split;
    try discriminate; try lia.
  all: intros [|tid] p H; discriminate H.
Qed.

Lemma pipe_inv_run (sched : list Pipe.action) :
  forall st,
  tasks_inv st /\ trace_inv st /\ cause_inv st ->
  tasks_inv (run_ sched st) /\ trace_inv (run_ sched st) /\ cause_inv (run_ sched st).
Proof.
  induction sched as [|act sched IH]; intros st H; [exact H|].
  apply IH. destruct H as (H1 & H2 & H3).
  split; [|split];
    [now apply tasks_inv_step | now apply trace_inv_step | now apply cause_inv_step].
Qed.

Lemma prefix_firstn {A} (l l' rest : list A) :
  l ++ rest = l' -> l = firstn (List.length l) l'.
Proof.
  intros <-. rewrite firstn_app, Nat.sub_diag, firstn_all. simpl.
  now rewrite app_nil_r.
Qed.

(** C5: in every run of the pipeline, the results a scoring goroutine has
    sent are, in order, results for the first errors of the cause chain of its
    top-level error, outermost first.  When it has returned and the context is
    not done, it has sent exactly one result for each of the [n] errors of
    the chain.  When the channel is closed and the context is not done, every
    goroutine has done so, and each of these sends precedes the close.  The
    reader of the channel gets the results in the order they were sent. *)
Theorem chain_results_in_order (a : Analyzer) (res : list (option JavaError))
    (err : option error) (sched : list Pipe.action)
    (tid : nat) (top : JavaError) (t : Pipe.task) :
  let st := Pipe.run HardCodedChecks split lineMatchPercent sched (Pipe.init a res err) in
  let emitted := map RError (Pipe.sent_by tid (Pipe.trace st)) in
  nth_error (Pipe.tasks st) tid = Some (top, t) ->
  (exists k, emitted = firstn k (chain top)) /\
  (t = Pipe.TDone -> Pipe.ctx st = None ->
   emitted = chain top /\
   List.length (Pipe.sent_by tid (Pipe.trace st)) = List.length (chain top)) /\
  (Pipe.closed st = true -> Pipe.ctx st = None ->
   t = Pipe.TDone /\
   exists pre post,
     Pipe.trace st = pre ++ Pipe.OClose :: post /\
     map RError (Pipe.sent_by tid pre) = chain top /\
     Pipe.sent post = []) /\
  Pipe.received st ++ Pipe.result st = Pipe.sent (Pipe.trace st).
Proof.
  intros st emitted Hn.
  pose proof (pipe_inv_run sched (Pipe.init a res err) (pipe_inv_init a res err))
    as Hinv.
  change (tasks_inv st /\ trace_inv st /\ cause_inv st) in Hinv. clearbody st.
  destruct Hinv as ((H1 & _) & (HA & _ & HC & HD & HE & _) & _).
  pose proof (H1 tid _ Hn) as Hok. unfold task_ok in Hok. cbn [fst snd] in Hok.
  fold emitted in Hok.
  assert (Hdone : t = Pipe.TDone -> Pipe.ctx st = None -> emitted = chain top).
  { intros -> Hc. destruct Hok as [_ [H|H]]; [contradiction|exact H]. }
  split; [|split; [|split]].
  - destruct t as [oj|r j|].
    + exists (List.length emitted). now apply (prefix_firstn _ _ (chain_opt oj)).
    + exists (List.length emitted). now apply (prefix_firstn _ _ (chain j)).
    + destruct Hok as [[rest Hrest] _].
      exists (List.length emitted). now apply (prefix_firstn _ _ rest).
  - intros Ht Hc. split; [now apply Hdone|].
    rewrite <- (Hdone Ht Hc). unfold emitted. now rewrite length_map.
  - intros Hcl Hc.
    assert (Ht : t = Pipe.TDone).
    { destruct (HD (proj2 HA Hcl)) as [H|H]; [contradiction|].
      apply (all_done_task_at _ tid _ H). unfold Pipe.task_at. now rewrite Hn. }
    split; [exact Ht|].
    specialize (Hdone Ht Hc). unfold emitted in Hdone.
    destruct (HC Hcl) as (pre & Hs & [[Htr _]|(t' & Htr & _)]).
    + exists pre, []. split; [exact Htr|]. split; [|reflexivity].
      rewrite Htr, sent_by_app in Hdone. simpl in Hdone.
      now rewrite app_nil_r in Hdone.
    + exists pre, [Pipe.OPanic t']. split; [exact Htr|]. split; [|reflexivity].
      rewrite Htr, sent_by_app in Hdone. simpl in Hdone.
      now rewrite app_nil_r in Hdone.
  - exact HE.
Qed.

(** C10: [DoError] returns a nil error for every error, cache and answer
    of its collaborators, and in no run of the pipeline is the cause of the
    session context an error of a scoring goroutine. *)
Theorem DoError_never_fails :
  (forall a db clk jerr,
     snd (fst (DoError HardCodedChecks split lineMatchPercent a db clk jerr)) = None) /\
  (forall a res err sched e,
     Pipe.ctx (Pipe.run HardCodedChecks split lineMatchPercent sched (Pipe.init a res err))
     <> Some (Pipe.CauseScore e)).
Proof.
  split.
  - apply DoError_err_nil.
  - intros a res err sched e.
    destruct (pipe_inv_run sched (Pipe.init a res err) (pipe_inv_init a res err))
      as (_ & _ & H).
    apply H.
Qed.


End PipelineProperties.

(** A top-level error with one cause, scored and sent while nothing is
    cancelled: two results, the outer error's first, then the close. *)
Lemma chain_results_in_order_witness :
  let sched :=
    [Pipe.MainRecv;
     Pipe.TaskStep 0 sample_clk sample_db; Pipe.TaskSend 0;
     Pipe.TaskStep 0 sample_clk sample_db; Pipe.TaskSend 0;
     Pipe.TaskStep 0 sample_clk sample_db;
     Pipe.MainRecv; Pipe.MainWaited; Pipe.Consume; Pipe.Consume] in
  let st := Pipe.run no_HardCodedChecks split_first lineMatch_0_8 sched
              (Pipe.init NewAnalyzer [Some sample_outer; None] None) in
  map RError (Pipe.sent_by 0 (Pipe.trace st)) = [sample_outer; sample_inner] /\
  List.length (Pipe.sent_by 0 (Pipe.trace st)) = 2.
Proof.
  intros sched st.
  destruct (chain_results_in_order no_HardCodedChecks split_first lineMatch_0_8
              NewAnalyzer [Some sample_outer; None] None sched
              0 sample_outer Pipe.TDone eq_refl) as (_ & H & _).
  exact (H eq_refl eq_refl).
Defined.

Example DoLogStream_two_results :
  let sched :=
    [Pipe.MainRecv;
     Pipe.TaskStep 0 sample_clk sample_db; Pipe.TaskSend 0;
     Pipe.TaskStep 0 sample_clk sample_db; Pipe.TaskSend 0;
     Pipe.TaskStep 0 sample_clk sample_db;
     Pipe.MainRecv; Pipe.MainWaited; Pipe.Consume; Pipe.Consume] in
  let st := Pipe.run no_HardCodedChecks split_first lineMatch_0_8 sched
              (Pipe.init NewAnalyzer [Some sample_outer; None] None) in
  exists r1 r2,
    Pipe.trace st = [Pipe.OSend 0 r1; Pipe.OSend 0 r2; Pipe.OClose] /\
    Pipe.received st = [r1; r2] /\
    RError r1 = sample_outer /\ RError r2 = sample_inner /\
    Pipe.ctx st = None /\ Pipe.closed st = true.
Proof.
  intros sched st. eexists. eexists. vm_compute. repeat split.
Qed.

Lemma DoError_never_fails_witness :
  snd (fst (DoError no_HardCodedChecks split_first lineMatch_0_8
              NewAnalyzer sample_db sample_clk sample_outer)) = None /\
  Pipe.ctx (Pipe.run no_HardCodedChecks split_first lineMatch_0_8
              [Pipe.MainRecv; Pipe.TaskStep 0 sample_clk sample_db; Pipe.TaskSend 0]
              (Pipe.init NewAnalyzer [Some sample_outer; None] None))
  <> Some (Pipe.CauseScore (ErrOther "score")).
Proof.
  destruct (DoError_never_fails no_HardCodedChecks split_first lineMatch_0_8) as [H1 H2].
  split; [apply H1|apply H2].
Defined.

(** C4 fails on the code: the scanner delivers one error and then reports
    an error of its own.  The main goroutine cancels, returns and closes
    [result] while the scoring goroutine is still before its call of
    [DoError]: it has neither returned nor seen the context done.  When it
    reaches its [select], the send on the closed channel can proceed, and
    panics. *)
Lemma DoLogStream_closes_under_running_task :
  let run := Pipe.run no_HardCodedChecks split_first lineMatch_0_8 in
  let st0 := Pipe.init NewAnalyzer [Some sample_outer] (Some (ErrOther "read")) in
  let st2 := run [Pipe.MainRecv; Pipe.MainErr] st0 in
  let st4 := run [Pipe.TaskStep 0 sample_clk sample_db; Pipe.TaskSend 0] st2 in
  Pipe.closed st2 = true /\
  Pipe.task_at (Pipe.tasks st2) 0 = Some (Pipe.TLoop (Some sample_outer)) /\
  Pipe.ctx st2 = Some (Pipe.CauseTokenizer (ErrOther "read")) /\
  Pipe.trace st4 = [Pipe.OClose; Pipe.OPanic 0] /\
  Pipe.panicked st4 = true.
Proof. vm_compute. repeat split. Qed.

(** The same when the caller cancels its context. *)
Example DoLogStream_cancelled_under_running_task :
  let run := Pipe.run no_HardCodedChecks split_first lineMatch_0_8 in
  let st0 := Pipe.init NewAnalyzer [Some sample_outer; None] None in
  let st3 := run [Pipe.MainRecv; Pipe.ParentCancel; Pipe.MainCtxDone] st0 in
  let st5 := run [Pipe.TaskStep 0 sample_clk sample_db; Pipe.TaskSend 0] st3 in
  Pipe.closed st3 = true /\
  Pipe.task_at (Pipe.tasks st3) 0 = Some (Pipe.TLoop (Some sample_outer)) /\
  Pipe.trace st5 = [Pipe.OClose; Pipe.OPanic 0] /\
  Pipe.panicked st5 = true.
Proof. vm_compute. repeat split. Qed.

(* ================================================================== *)
(** * Further properties of the code *)

(* ------------------------------------------------------------------ *)
(** ** The cache: freshness *)

(** A set stamped at a time other than the zero time is served as it is up
    to and including one hour after the stamp: the repository is not
    consulted, whatever it would answer, and nothing changes. *)
Theorem getErrors_fresh (a : Analyzer) (db : ErrorDB) (clk : Clock) :
  IsZero (lastUpdateErr a) = false ->
  (now_rlock clk <= lastUpdateErr a + Hour)%Z ->
  getErrors a db clk = (cachedErrors a, a).
Proof.
  intros Hz Hn. unfold getErrors.
  assert (H : needUpdate a (now_rlock clk) = false).
  { unfold needUpdate, After, Add. rewrite Hz. simpl. apply Z.ltb_ge. exact Hn. }
  now rewrite H.
Qed.

Lemma getErrors_fresh_witness :
  let e := {| Error := "a.B"; Message := "m"; Solutions := [] |} in
  let a := {| lastUpdateErr := 5%Z; cachedErrors := Some [e];
              recentMixinLogs := RingBuffer.NewRingBuffer 64 |} in
  let db := {| db_visits := []; db_result := Some (ErrOther "down") |} in
  let clk := {| now_rlock := 5 + Hour; now_lock := 5 + Hour; now_update := 5 + Hour |}%Z in
  getErrors a db clk = (Some [e], a).
Proof.
  intros e a db clk.
  apply (getErrors_fresh a db clk); [reflexivity|].
  cbn. lia.
Defined.

(** A stale set and a repository that answers: the call returns the
    repository's descriptions, in its order, as a non-nil slice, and stamps
    the set.  A second call within the hour serves the same descriptions
    although the repository now answers something else or fails; a second
    call later than that replaces them by what the repository then
    answers. *)
Theorem getErrors_refresh_then_read (a : Analyzer) (db1 db2 : ErrorDB) (clk1 clk2 : Clock) :
  needUpdate a (now_rlock clk1) = true ->
  needUpdate a (now_lock clk1) = true ->
  db_result db1 = None ->
  now_update clk1 <> 0%Z ->
  let a1 := snd (getErrors a db1 clk1) in
  fst (getErrors a db1 clk1) = Some (db_visits db1) /\
  lastUpdateErr a1 = now_update clk1 /\
  recentMixinLogs a1 = recentMixinLogs a /\
  ((now_rlock clk2 <= now_update clk1 + Hour)%Z ->
   getErrors a1 db2 clk2 = (Some (db_visits db1), a1)) /\
  ((now_update clk1 + Hour < now_rlock clk2)%Z ->
   (now_update clk1 + Hour < now_lock clk2)%Z ->
   db_result db2 = None ->
   fst (getErrors a1 db2 clk2) = Some (db_visits db2)).
Proof.
  intros H1 H2 Hdb Hnz a1.
  assert (Ea1 : a1 = {| lastUpdateErr := now_update clk1;
                        cachedErrors := Some (db_visits db1);
                        recentMixinLogs := recentMixinLogs a |}).
  { unfold a1, getErrors. rewrite H1, H2.
    now rewrite (updateErrorsLocked_ok a db1 (now_update clk1) Hdb). }
  assert (E1 : fst (getErrors a db1 clk1) = Some (db_visits db1)).
  { unfold getErrors. rewrite H1, H2.
    now rewrite (updateErrorsLocked_ok a db1 (now_update clk1) Hdb). }
  split; [exact E1|]. rewrite Ea1. cbn [lastUpdateErr recentMixinLogs].
  split; [reflexivity|]. split; [reflexivity|]. split.
  - intros Hn. unfold getErrors, needUpdate, IsZero, After, Add.
    cbn [lastUpdateErr cachedErrors].
    destruct (Z.eqb_spec (now_update clk1) 0); [contradiction|].
    destruct (Z.ltb_spec (now_update clk1 + Hour) (now_rlock clk2)); [lia|].
    reflexivity.
  - intros Hr Hl Hdb2. unfold getErrors, needUpdate, IsZero, After, Add.
    cbn [lastUpdateErr cachedErrors].
    destruct (Z.eqb_spec (now_update clk1) 0); [contradiction|].
    destruct (Z.ltb_spec (now_update clk1 + Hour) (now_rlock clk2)); [|lia].
    destruct (Z.ltb_spec (now_update clk1 + Hour) (now_lock clk2)); [|lia].
    cbn [orb]. now rewrite (updateErrorsLocked_ok _ db2 (now_update clk2) Hdb2).
Qed.

Lemma getErrors_refresh_then_read_witness :
  let e1 := {| Error := "a.B"; Message := "m"; Solutions := [] |} in
  let e2 := {| Error := "c.D"; Message := ""; Solutions := [] |} in
  let db1 := {| db_visits := [e1]; db_result := None |} in
  let db2 := {| db_visits := [e2; e1]; db_result := None |} in
  let clk1 := {| now_rlock := 100; now_lock := 101; now_update := 102 |}%Z in
  let soon := {| now_rlock := 102 + Hour; now_lock := 0; now_update := 0 |}%Z in
  let late := {| now_rlock := 103 + Hour; now_lock := 104 + Hour;
                 now_update := 105 + Hour |}%Z in
  let a1 := snd (getErrors NewAnalyzer db1 clk1) in
  fst (getErrors a1 db2 soon) = Some [e1] /\
  fst (getErrors a1 db2 late) = Some [e2; e1].
Proof.
  intros e1 e2 db1 db2 clk1 soon late a1. split.
  - destruct (getErrors_refresh_then_read NewAnalyzer db1 db2 clk1 soon
                eq_refl eq_refl eq_refl) as (_ & _ & _ & H & _); [discriminate|].
    fold a1 in H. rewrite H; [reflexivity|]. cbn. lia.
  - destruct (getErrors_refresh_then_read NewAnalyzer db1 db2 clk1 late
                eq_refl eq_refl eq_refl) as (_ & _ & _ & _ & H); [discriminate|].
    fold a1 in H. apply H; cbn; try lia. reflexivity.
Defined.

(* ------------------------------------------------------------------ *)
(** ** Scoring: the remaining cases *)

Section FurtherScoring.

Variable HardCodedChecks : Analyzer -> JavaError -> option ErrorDesc * option error.
Variable split : string -> ascii -> string * string.
Variable lineMatchPercent : string -> string -> float32.

(** A description without message scores exactly when the last segment of
    its key is an actual class name and is the error's: a description whose
    key ends in "*" or in nothing, and no message, never scores. *)
Theorem score_without_message_nonzero_iff (jerr : JavaError) (e : ErrorDesc)
    (epkg ecls epkg2 ecls2 : string) :
  Message e = EmptyString ->
  rsplit (Class jerr) dot = (epkg, ecls) ->
  rsplit (Error e) dot = (epkg2, ecls2) ->
  (neb (score split lineMatchPercent jerr e) zero = true
   <-> ecls2 <> EmptyString /\ ecls2 <> "*"%string /\ ecls2 = ecls).
Proof.
  intros Hmsg Hj He. unfold score. rewrite Hj, He, Hmsg. cbn [String.length Nat.eqb].
  destruct (ignoreErrorTyp ecls2) eqn:Hi.
  - cbn. split; [discriminate|]. intros (H1 & H2 & _).
    apply ignoreErrorTyp_true_iff in Hi. tauto.
  - apply ignoreErrorTyp_false_iff in Hi. cbn [negb andb].
    destruct (String.eqb_spec ecls2 ecls) as [->|Hne].
    + split; [tauto|]. intros _.
      now destruct (String.eqb epkg2 "*" || String.eqb epkg epkg2).
    + cbn. split; [discriminate|]. tauto.
Qed.

(** With a message and a class name that is not the error's, the type
    counts for nothing and the score is [0 + overlap * 0.9]: the description
    can still be a candidate on its message alone. *)
Theorem score_other_class (jerr : JavaError) (e : ErrorDesc)
    (epkg ecls epkg2 ecls2 jemsg rest : string) :
  Message e <> EmptyString ->
  rsplit (Class jerr) dot = (epkg, ecls) ->
  rsplit (Error e) dot = (epkg2, ecls2) ->
  split (JMessage jerr) newline = (jemsg, rest) ->
  ecls2 <> EmptyString -> ecls2 <> "*"%string -> ecls2 <> ecls ->
  score split lineMatchPercent jerr e
  = add zero (mul (lineMatchPercent jemsg (Message e)) c0_9).
Proof.
  intros Hmsg Hj He Hs H1 H2 Hne.
  assert (Hlen : (String.length (Message e) =? 0) = false).
  { apply not_true_iff_false. now rewrite length_zero_iff. }
  assert (Hi : ignoreErrorTyp ecls2 = false)
    by (apply ignoreErrorTyp_false_iff; now split).
  unfold score. rewrite Hj, He, Hlen, Hs, Hi.
  destruct (String.eqb_spec ecls2 ecls); [contradiction|]. reflexivity.
Qed.

(** What [DoError] returns.  When the hard-coded check names a description,
    that description alone with score 1, and the cache is neither read nor
    refreshed.  Otherwise the cached descriptions (after the refresh
    [getErrors] may make) whose score is neither zero, in the order of the
    cache, each with its score. *)
Theorem DoError_matched (a : Analyzer) (db : ErrorDB) (clk : Clock) (jerr : JavaError) :
  let r := DoError HardCodedChecks split lineMatchPercent a db clk jerr in
  let errs := elems (fst (getErrors a db clk)) in
  (forall e, fst (HardCodedChecks a jerr) = Some e ->
     r = ((Some [ {| SErrorDesc := e; Match := one |} ], None), a)) /\
  (fst (HardCodedChecks a jerr) = None ->
   exists l,
     r = ((Some l, None), snd (getErrors a db clk)) /\
     map SErrorDesc l
     = filter (fun e => neb (score split lineMatchPercent jerr e) zero) errs /\
     Forall (fun sol => Match sol = score split lineMatchPercent jerr (SErrorDesc sol)) l /\
     List.length l <= List.length errs).
Proof.
  intros r errs. split.
  - intros e He. unfold r, DoError. now rewrite He.
  - intros Hn. exists (candidates split lineMatchPercent jerr errs).
    split; [|split; [|split]].
    + unfold r. now rewrite (DoError_generic HardCodedChecks split lineMatchPercent
                               a db clk jerr Hn).
    + unfold candidates. rewrite map_map. cbn [SErrorDesc]. apply map_id.
    + unfold candidates. apply Forall_forall. intros sol Hin.
      apply in_map_iff in Hin. now destruct Hin as [e [<- _]].
    + unfold candidates. rewrite length_map. apply filter_length_le.
Qed.

End FurtherScoring.

Lemma score_without_message_nonzero_iff_witness :
  let jerr := mkJavaError "java.lang.NullPointerException" "" None in
  let e := {| Error := "java.lang.*"; Message := ""; Solutions := [] |} in
  neb (score split_first lineMatch_0_8 jerr e) zero = false.
Proof.
  intros jerr e. apply not_true_iff_false. intros H.
  apply (score_without_message_nonzero_iff split_first lineMatch_0_8 jerr e
           "java.lang" "NullPointerException" "java.lang" "*"
           eq_refl eq_refl eq_refl) in H.
  destruct H as (_ & H & _). now apply H.
Defined.

Lemma score_other_class_witness :
  let jerr := mkJavaError "java.lang.NullPointerException" "boom" None in
  let e := {| Error := "java.lang.IllegalStateException"; Message := "boom";
              Solutions := [] |} in
  score split_first lineMatch_0_8 jerr e = add zero (mul c0_8 c0_9).
Proof.
  intros jerr e.
  apply (score_other_class split_first lineMatch_0_8 jerr e
           "java.lang" "NullPointerException" "java.lang" "IllegalStateException"
           "boom" ""); try reflexivity; discriminate.
Defined.

Lemma DoError_matched_witness :
  let e1 := {| Error := "java.io.IOException"; Message := ""; Solutions := [] |} in
  let e2 := {| Error := "*"; Message := ""; Solutions := [] |} in
  let e3 := {| Error := "x.IOException"; Message := ""; Solutions := [] |} in
  let a := {| lastUpdateErr := 1%Z; cachedErrors := Some [e1; e2; e3];
              recentMixinLogs := RingBuffer.NewRingBuffer 64 |} in
  exists l,
    fst (fst (DoError no_HardCodedChecks split_first lineMatch_0_8 a sample_db
                sample_clk sample_inner)) = Some l /\
    map SErrorDesc l = [e1; e3].
Proof.
  intros e1 e2 e3 a.
  destruct (DoError_matched no_HardCodedChecks split_first lineMatch_0_8 a sample_db
              sample_clk sample_inner) as [_ H].
  destruct (H eq_refl) as (l & Hr & Hm & _).
  exists l. split; [now rewrite Hr|]. rewrite Hm. reflexivity.
Defined.

(* ------------------------------------------------------------------ *)
(** ** The recorder: pieces, close, line ends *)

Lemma split_lines_app (x y cur : list ascii) :
  split_lines cur (x ++ y)
  = (fst (split_lines cur x) ++ fst (split_lines (snd (split_lines cur x)) y),
     snd (split_lines (snd (split_lines cur x)) y)).
Proof.
  revert cur. induction x as [|c x IH]; intros cur; simpl.
  - now destruct (split_lines cur y).
  - destruct (Ascii.eqb c newline).
    + rewrite (IH []). destruct (split_lines [] x) as [ls rest]. reflexivity.
    + apply IH.
Qed.

Lemma split_lines_cur (s cur : list ascii) :
  no_newline cur = true ->
  split_lines cur s = split_lines [] (cur ++ s).
Proof.
  intros H. rewrite (split_lines_app cur s []).
  rewrite (split_lines_no_newline cur [] H). simpl.
  now destruct (split_lines cur s).
Qed.

Lemma split_lines_rest_no_newline (s : list ascii) :
  forall cur, no_newline cur = true -> no_newline (snd (split_lines cur s)) = true.
Proof.
  induction s as [|c s IH]; intros cur H; simpl; [exact H|].
  destruct (Ascii.eqb c newline) eqn:Hc.
  - specialize (IH [] eq_refl). now destruct (split_lines [] s).
  - apply IH. unfold no_newline in *. rewrite forallb_app, H. simpl. now rewrite Hc.
Qed.

(** The recorder does not depend on how the text arrives: writing two
    pieces one after the other leaves the analyzer and the recorder as
    writing them in one piece does, and no line feed ever stays in the
    buffer. *)
Theorem Write_pieces (a : Analyzer) (r : logRecorder) (b1 b2 : list ascii) :
  let '(a1, r1, _) := Write a r b1 in
  let '(a2, r2, _) := Write a1 r1 b2 in
  Write a r (b1 ++ b2) = (a2, r2, (Z.of_nat (List.length (b1 ++ b2)), None)) /\
  no_newline (buf r1) = true /\ no_newline (buf r2) = true.
Proof.
  rewrite (Write_lines a r b1). cbv beta iota.
  rewrite !Write_lines. cbn [buf closed].
  set (ls1 := fst (split_lines [] (buf r ++ b1))).
  set (rest1 := snd (split_lines [] (buf r ++ b1))).
  assert (Hrest1 : no_newline rest1 = true)
    by (apply split_lines_rest_no_newline; reflexivity).
  assert (E : split_lines [] (buf r ++ b1 ++ b2)
              = (ls1 ++ fst (split_lines [] (rest1 ++ b2)),
                 snd (split_lines [] (rest1 ++ b2)))).
  { rewrite app_assoc, split_lines_app. fold ls1 rest1.
    now rewrite (split_lines_cur b2 rest1 Hrest1). }
  rewrite E. cbn [fst snd]. rewrite fold_left_app.
  repeat split; try assumption.
  apply split_lines_rest_no_newline. reflexivity.
Qed.

(** A line cut in the middle of its third tag is recorded all the same. *)
Example Write_pieces_cut_line :
  let a := fst (newLogRecorder NewAnalyzer) in
  let r := snd (newLogRecorder NewAnalyzer) in
  let b1 := bytes "[12:00:00] [main/INFO] [mix" in
  let b2 := bytes "in/]: Hello
tail" in
  let '(a1, r1, _) := Write a r b1 in
  let '(a2, r2, _) := Write a1 r1 b2 in
  RingBuffer.items (recentMixinLogs a1) = [] /\
  RingBuffer.items (recentMixinLogs a2) = ["Hello"%string] /\
  buf r2 = bytes "tail".
Proof. vm_compute. repeat split. Qed.

(** Text after the last line feed is only buffered, and [Close] throws it
    away: it is never recorded.  [Close] a second time changes nothing.
    [Write] does not look at [closed]: after [Close] it goes on recording,
    starting from an empty buffer. *)
Theorem Close_drops_partial_line (a : Analyzer) (r : logRecorder) (b b' : list ascii) :
  closed r = false ->
  no_newline (buf r) = true ->
  no_newline b = true ->
  let '(a1, r1, _) := Write a r b in
  a1 = a /\ buf r1 = buf r ++ b /\
  fst (Close r1) = {| closed := true; buf := [] |} /\
  fst (Close (fst (Close r1))) = fst (Close r1) /\
  Write a1 (fst (Close r1)) b'
  = (fold_left record (fst (split_lines [] b')) a,
     {| closed := true; buf := snd (split_lines [] b') |},
     (Z.of_nat (List.length b'), None)).
Proof.
  intros Hcl Hbuf Hb. rewrite Write_lines.
  assert (Hn : no_newline (buf r ++ b) = true)
    by (unfold no_newline in *; now rewrite forallb_app, Hbuf, Hb).
  rewrite (split_lines_no_newline _ [] Hn). cbn [fst snd app fold_left buf].
  split; [reflexivity|]. split; [reflexivity|].
  unfold Close at 1 2 3 4. cbn [closed]. rewrite Hcl. cbn [fst closed].
  split; [reflexivity|]. split; [reflexivity|].
  rewrite Write_lines. reflexivity.
Qed.

Lemma Close_drops_partial_line_witness :
  let a := fst (newLogRecorder NewAnalyzer) in
  let r := snd (newLogRecorder NewAnalyzer) in
  let b := bytes "[12:00:00] [main/INFO] [mixin/]: lost" in
  let b' := bytes "[12:00:01] [main/INFO] [mixin/]: kept
" in
  let r1 := snd (fst (Write a r b)) in
  RingBuffer.items (recentMixinLogs (fst (fst (Write a r b)))) = [] /\
  RingBuffer.items
    (recentMixinLogs (fst (fst (Write (fst (fst (Write a r b))) (fst (Close r1)) b'))))
  = ["kept"%string].
Proof.
  intros a r b b' r1.
  pose proof (Close_drops_partial_line a r b b' eq_refl eq_refl eq_refl) as H.
  unfold r1. destruct (Write a r b) as [[a1 r1'] n1]. cbn [fst snd].
  destruct H as (-> & _ & _ & _ & ->). split; reflexivity.
Defined.

(** Only the line feed ends a line: in text with CR LF line ends the
    carriage return stays at the end of the recorded payload. *)
Theorem record_keeps_carriage_return (a : Analyzer) (line p : list ascii) (c : ascii) :
  mixin_line line (c :: p) ->
  space c = false ->
  record a (line ++ [carriage_return])
  = set_recentMixinLogs a
      (RingBuffer.Push (recentMixinLogs a)
         (string_of_list_ascii (c :: p ++ [carriage_return]))).
Proof.
  intros (t1 & w1 & t2 & w2 & t3 & w3 & E & Ht1 & Hw1 & Ht2 & Hw2 & Ht3 & Hw3 & _ & Hp) Hc.
  assert (Hm : mixin_line (line ++ [carriage_return]) (c :: p ++ [carriage_return])).
  { exists t1, w1, t2, w2, t3, w3. repeat split; try assumption.
    - rewrite E. repeat rewrite <- app_assoc. reflexivity.
    - discriminate.
    - change (c :: p ++ [carriage_return]) with ((c :: p) ++ [carriage_return]).
      rewrite forallb_app, Hp. reflexivity. }
  unfold record.
  rewrite (proj2 (FindSubmatch_mixinLogRe_Some _ _) (conj Hm (or_introl Hc))).
  reflexivity.
Qed.

Lemma record_keeps_carriage_return_witness :
  RingBuffer.items
    (recentMixinLogs
       (record NewAnalyzer
          (bytes "[12:00:00] [main/INFO] [mixin/]: Hello" ++ [carriage_return])))
  = [string_of_list_ascii (bytes "Hello" ++ [carriage_return])].
Proof.
  rewrite (record_keeps_carriage_return NewAnalyzer
             (bytes "[12:00:00] [main/INFO] [mixin/]: Hello") (bytes "ello") "H").
  - reflexivity.
  - exists (bytes "12:00:00"), (bytes " "), (bytes "main/INFO"), (bytes " "),
           [], (bytes " ").
    repeat split; try reflexivity; discriminate.
  - reflexivity.
Defined.

(** The pattern is anchored at the start of the line: a line that does not
    begin with an opening bracket, for instance one with leading white space
    or with a date in front, is dropped whatever follows. *)
Theorem record_anchored (a : Analyzer) (c : ascii) (line : list ascii) :
  c <> "["%char ->
  record a (c :: line) = a.
Proof.
  intros Hc. unfold record.
  assert (H : FindSubmatch mixinLogRe (c :: line) = None).
  { apply FindSubmatch_mixinLogRe_None.
    intros [p (t1 & w1 & t2 & w2 & t3 & w3 & E & _)].
    cbn [bytes list_ascii_of_string app] in E. injection E as E _. contradiction. }
  now rewrite H.
Qed.

Lemma record_anchored_witness :
  record NewAnalyzer (bytes " [12:00:00] [main/INFO] [mixin/]: Hello") = NewAnalyzer.
Proof.
  apply (record_anchored NewAnalyzer " "
           (bytes "[12:00:00] [main/INFO] [mixin/]: Hello")).
  discriminate.
Defined.

(* ------------------------------------------------------------------ *)
(** ** The pipeline: causes, results, panics *)

Lemma map_fst_set_task ts tid t : map fst (Pipe.set_task ts tid t) = map fst ts.
Proof.
  revert tid. induction ts as [|[top t0] ts IH]; intros [|tid]; simpl; try reflexivity.
  now rewrite IH.
Qed.

Lemma In_sent_sent_by (r : ErrorResult) (tr : list Pipe.obs) :
  In r (Pipe.sent tr) -> exists tid, In r (Pipe.sent_by tid tr).
Proof.
  induction tr as [|o tr IH]; simpl; [contradiction|].
  intros H. apply in_app_or in H. destruct H as [H|H].
  - destruct o as [tid res| |tid]; simpl in H; try contradiction.
    destruct H as [<-|[]]. exists tid. apply in_or_app. left.
    rewrite Nat.eqb_refl. now left.
  - destruct (IH H) as [tid Hin]. exists tid. apply in_or_app. now right.
Qed.

Section FurtherPipeline.

Variable HardCodedChecks : Analyzer -> JavaError -> option ErrorDesc * option error.
Variable split : string -> ascii -> string * string.
Variable lineMatchPercent : string -> string -> float32.

Let step_ := Pipe.step HardCodedChecks split lineMatchPercent.
Let run_ := Pipe.run HardCodedChecks split lineMatchPercent.

Lemma ctx_sticky_step (st : Pipe.state) (act : Pipe.action) (c : Pipe.cause) :
  Pipe.ctx st = Some c -> Pipe.ctx (step_ st act) = Some c.
Proof.
  intros Hc. unfold step_, Pipe.step.
  destruct (Pipe.panicked st); [exact Hc|].
  destruct act as [ | | | |tid clk db|tid|tid| | |b].
  - destruct (Pipe.main_pc st); try exact Hc.
    destruct (Pipe.resCh st) as [|[jerr|] rest]; exact Hc.
  - destruct (Pipe.main_pc st); try exact Hc.
    destruct (Pipe.errCh st); try exact Hc. cbn. now rewrite Hc.
  - destruct (Pipe.main_pc st); try exact Hc.
    rewrite Hc. reflexivity.
  - destruct (Pipe.main_pc st); try exact Hc.
    destruct (Pipe.all_done (Pipe.tasks st)); exact Hc.
  - destruct (Pipe.task_at (Pipe.tasks st) tid) as [[[jerr|]|res jerr|]|]; try exact Hc.
    destruct (DoError _ _ _ _ _ _ _) as [[matched [err|]] a']; cbn; now rewrite Hc.
  - destruct (Pipe.task_at (Pipe.tasks st) tid) as [[oj|res jerr|]|]; try exact Hc.
    destruct (Pipe.closed st); try exact Hc.
    destruct (List.length (Pipe.result st) <? Pipe.result_cap); exact Hc.
  - destruct (Pipe.task_at (Pipe.tasks st) tid) as [[oj|res jerr|]|]; try exact Hc.
    rewrite Hc. reflexivity.
  - destruct (Pipe.result st); exact Hc.
  - cbn. now rewrite Hc.
  - destruct (Write (Pipe.an st) (Pipe.recorder st) b) as [[a' r'] n]. exact Hc.
Qed.

(** The cause of the session is the first one: once the context is done,
    no later cancellation (by the scanner's error, by the caller) changes
    its cause. *)
Theorem cause_is_first (st : Pipe.state) (sched : list Pipe.action) (c : Pipe.cause) :
  Pipe.ctx st = Some c ->
  Pipe.ctx (Pipe.run HardCodedChecks split lineMatchPercent sched st) = Some c.
Proof.
  revert st. induction sched as [|act sched IH]; intros st Hc; [exact Hc|].
  apply IH. now apply ctx_sticky_step.
Qed.

Lemma spawn_inv_step (res0 : list (option JavaError)) (st : Pipe.state)
    (act : Pipe.action) :
  spawn_inv res0 st -> spawn_inv res0 (step_ st act).
Proof.
  intros Hinv. unfold step_, Pipe.step.
  destruct (Pipe.panicked st); [exact Hinv|].
  assert (Hmove : forall a ts c,
             map fst ts = map fst (Pipe.tasks st) ->
             spawn_inv res0 (Pipe.with_tasks st a ts c)).
  { intros a ts c E. destruct Hinv as (tail & H1 & H2). exists tail.
    cbn [Pipe.with_tasks Pipe.tasks Pipe.main_pc Pipe.resCh]. now rewrite E. }
  assert (Hret : forall c e, Pipe.main_pc (Pipe.main_return st c e) <> Pipe.MLoop)
    by (intros c e; cbn; discriminate).
  destruct act as [ | | | |tid clk db|tid|tid| | |b].
  - destruct (Pipe.main_pc st) eqn:Hm; try exact Hinv.
    destruct (Pipe.resCh st) as [|[jerr|] rest] eqn:Hr; [exact Hinv| |];
      destruct Hinv as (tail & H1 & H2); specialize (H2 Hm); rewrite Hr in H2.
    + exists rest. cbn [Pipe.tasks Pipe.main_pc Pipe.resCh]. split; [|reflexivity].
      rewrite H1, <- H2, !map_app, <- app_assoc. reflexivity.
    + exists tail. cbn [Pipe.tasks Pipe.main_pc Pipe.resCh].
      split; [exact H1|discriminate].
  - destruct (Pipe.main_pc st); try exact Hinv.
    destruct (Pipe.errCh st); try exact Hinv.
    destruct Hinv as (tail & H1 & _). exists tail. split; [exact H1|].
    intros H. now apply Hret in H.
  - destruct (Pipe.main_pc st); try exact Hinv.
    destruct (Pipe.ctx st); try exact Hinv.
    destruct Hinv as (tail & H1 & _). exists tail. split; [exact H1|].
    intros H. now apply Hret in H.
  - destruct (Pipe.main_pc st); try exact Hinv.
    destruct (Pipe.all_done (Pipe.tasks st)); try exact Hinv.
    destruct Hinv as (tail & H1 & _). exists tail. split; [exact H1|].
    intros H. now apply Hret in H.
  - destruct (Pipe.task_at (Pipe.tasks st) tid) as [[[jerr|]|res jerr|]|]; try exact Hinv.
    + destruct (DoError _ _ _ _ _ _ _) as [[matched [err|]] a'];
        apply Hmove, map_fst_set_task.
    + apply Hmove, map_fst_set_task.
  - destruct (Pipe.task_at (Pipe.tasks st) tid) as [[oj|res jerr|]|]; try exact Hinv.
    destruct (Pipe.closed st); try exact Hinv.
    destruct (List.length (Pipe.result st) <? Pipe.result_cap); try exact Hinv.
    destruct Hinv as (tail & H1 & H2). exists tail.
    cbn [Pipe.tasks Pipe.main_pc Pipe.resCh]. now rewrite map_fst_set_task.
  - destruct (Pipe.task_at (Pipe.tasks st) tid) as [[oj|res jerr|]|]; try exact Hinv.
    destruct (Pipe.ctx st); try exact Hinv.
    apply Hmove, map_fst_set_task.
  - destruct (Pipe.result st); exact Hinv.
  - now apply Hmove.
  - destruct (Write (Pipe.an st) (Pipe.recorder st) b) as [[a' r'] n]. exact Hinv.
Qed.

Lemma spawn_inv_run (res0 : list (option JavaError)) (sched : list Pipe.action) :
  forall st, spawn_inv res0 st -> spawn_inv res0 (run_ sched st).
Proof.
  induction sched as [|act sched IH]; intros st H; [exact H|].
  apply IH. now apply spawn_inv_step.
Qed.

(** Every result sent on [result], hence every result the caller receives,
    is a result for an error of the cause chain of an error the scanner
    delivered; the goroutines are spawned for the errors the scanner
    delivers, in order, one for each. *)
Theorem results_belong_to_chains (a : Analyzer) (res : list (option JavaError))
    (err : option error) (sched : list Pipe.action) :
  let st := Pipe.run HardCodedChecks split lineMatchPercent sched (Pipe.init a res err) in
  (exists tail, res = map Some (map fst (Pipe.tasks st)) ++ tail) /\
  (forall r, In r (Pipe.received st) \/ In r (Pipe.result st) ->
     exists top, In (Some top) res /\ In (RError r) (chain top)).
Proof.
  intros st.
  pose proof (pipe_inv_run HardCodedChecks split lineMatchPercent sched
                (Pipe.init a res err) (pipe_inv_init a res err)) as Hinv.
  assert (Hsp : spawn_inv res st).
  { apply spawn_inv_run. exists res. now split. }
  change (tasks_inv st /\ trace_inv st /\ cause_inv st) in Hinv. clearbody st.
  destruct Hinv as ((H1 & H2) & (_ & _ & _ & _ & HE & _) & _).
  destruct Hsp as (tail & Hres & _).
  split; [now exists tail|].
  intros r Hr.
  assert (Hs : In r (Pipe.sent (Pipe.trace st))).
  { rewrite <- HE. apply in_or_app. exact Hr. }
  destruct (In_sent_sent_by r _ Hs) as [tid Htid].
  destruct (nth_error (Pipe.tasks st) tid) as [[top t]|] eqn:Hn.
  - exists top. split.
    + rewrite Hres. apply in_or_app. left. apply in_map, in_map_iff.
      exists (top, t). split; [reflexivity|]. now apply nth_error_In in Hn.
    + assert (Hpre : exists rest, map RError (Pipe.sent_by tid (Pipe.trace st)) ++ rest
                                  = chain top).
      { specialize (H1 tid _ Hn). unfold task_ok in H1. cbn [fst snd] in H1.
        destruct t as [oj|r' j|].
        - now exists (chain_opt oj).
        - exists (chain j). tauto.
        - tauto. }
      destruct Hpre as [rest <-]. apply in_or_app. left. now apply in_map.
  - apply nth_error_None in Hn. rewrite (H2 tid Hn) in Htid. contradiction.
Qed.

Lemma panic_inv_step (st : Pipe.state) (act : Pipe.action) :
  trace_inv st -> panic_inv st -> panic_inv (step_ st act).
Proof.
  intros Htr Hinv. unfold step_, Pipe.step.
  destruct (Pipe.panicked st) eqn:Hpan; [exact Hinv|].
  assert (Hquiet : forall st', Pipe.panicked st' = false -> panic_inv st').
  { intros st' H' H''. congruence. }
  destruct act as [ | | | |tid clk db|tid|tid| | |b].
  - destruct (Pipe.main_pc st); try exact Hinv.
    destruct (Pipe.resCh st) as [|[jerr|] rest]; now apply Hquiet.
  - destruct (Pipe.main_pc st); try exact Hinv.
    destruct (Pipe.errCh st); now apply Hquiet.
  - destruct (Pipe.main_pc st); try exact Hinv.
    destruct (Pipe.ctx st); now apply Hquiet.
  - destruct (Pipe.main_pc st); try exact Hinv.
    destruct (Pipe.all_done (Pipe.tasks st)); now apply Hquiet.
  - destruct (Pipe.task_at (Pipe.tasks st) tid) as [[[jerr|]|res jerr|]|];
      try (now apply Hquiet).
    destruct (DoError _ _ _ _ _ _ _) as [[matched [err|]] a']; now apply Hquiet.
  - destruct (Pipe.task_at (Pipe.tasks st) tid) as [[oj|res jerr|]|] eqn:Ht;
      try (now apply Hquiet).
    destruct (Pipe.closed st) eqn:Hcl.
    + unfold panic_inv. cbn [Pipe.panicked Pipe.ctx]. intros _.
      destruct Htr as (HA & _ & _ & HD & _).
      destruct (HD (proj2 HA Hcl)) as [H|H]; [exact H|].
      apply (all_done_task_at _ _ _ H) in Ht. discriminate Ht.
    + destruct (List.length (Pipe.result st) <? Pipe.result_cap); now apply Hquiet.
  - destruct (Pipe.task_at (Pipe.tasks st) tid) as [[oj|res jerr|]|];
      try (now apply Hquiet).
    destruct (Pipe.ctx st); now apply Hquiet.
  - destruct (Pipe.result st); now apply Hquiet.
  - now apply Hquiet.
  - destruct (Write (Pipe.an st) (Pipe.recorder st) b) as [[a' r'] n].
    now apply Hquiet.
Qed.

Lemma panic_inv_run (sched : list Pipe.action) :
  forall st, trace_inv st -> panic_inv st ->
  trace_inv (run_ sched st) /\ panic_inv (run_ sched st).
Proof.
  induction sched as [|act sched IH]; intros st Ht Hp; [now split|].
  apply IH.
  - now apply trace_inv_step.
  - now apply panic_inv_step.
Qed.

(** A session whose context is not done never sends on the closed channel:
    without cancellation there is no panic, and when [result] is closed every
    goroutine has returned. *)
Theorem no_panic_without_cancellation (a : Analyzer) (res : list (option JavaError))
    (err : option error) (sched : list Pipe.action) :
  let st := Pipe.run HardCodedChecks split lineMatchPercent sched (Pipe.init a res err) in
  Pipe.ctx st = None ->
  Pipe.panicked st = false /\
  (Pipe.closed st = true -> Pipe.all_done (Pipe.tasks st) = true).
Proof.
  intros st Hc.
  destruct (pipe_inv_init a res err) as (_ & Ht0 & _).
  destruct (panic_inv_run sched (Pipe.init a res err) Ht0) as [Ht Hp].
  { intros H. discriminate H. }
  change (trace_inv st) in Ht. change (panic_inv st) in Hp. clearbody st. split.
  - destruct (Pipe.panicked st) eqn:Hpan; [|reflexivity].
    exfalso. now apply (Hp Hpan).
  - intros Hcl. destruct Ht as (HA & _ & _ & HD & _).
    destruct (HD (proj2 HA Hcl)) as [H|H]; [contradiction|exact H].
Qed.

End FurtherPipeline.

Lemma cause_is_first_witness :
  let sched1 := [Pipe.MainRecv; Pipe.MainErr] in
  let sched2 := [Pipe.ParentCancel; Pipe.TaskStep 0 sample_clk sample_db;
                 Pipe.TaskCtxDone 0] in
  let st1 := Pipe.run no_HardCodedChecks split_first lineMatch_0_8 sched1
               (Pipe.init NewAnalyzer [Some sample_outer] (Some (ErrOther "read"))) in
  Pipe.ctx (Pipe.run no_HardCodedChecks split_first lineMatch_0_8 sched2 st1)
  = Some (Pipe.CauseTokenizer (ErrOther "read")).
Proof.
  intros sched1 sched2 st1.
  apply (cause_is_first no_HardCodedChecks split_first lineMatch_0_8 st1 sched2).
  reflexivity.
Defined.

Lemma results_belong_to_chains_witness :
  let sched :=
    [Pipe.MainRecv;
     Pipe.TaskStep 0 sample_clk sample_db; Pipe.TaskSend 0;
     Pipe.TaskStep 0 sample_clk sample_db; Pipe.TaskSend 0; Pipe.Consume] in
  let st := Pipe.run no_HardCodedChecks split_first lineMatch_0_8 sched
              (Pipe.init NewAnalyzer [Some sample_outer; None] None) in
  Forall (fun r => In (RError r) (chain sample_outer))
         (Pipe.received st ++ Pipe.result st).
Proof.
  intros sched st. apply Forall_forall. intros r Hr.
  destruct (results_belong_to_chains no_HardCodedChecks split_first lineMatch_0_8
              NewAnalyzer [Some sample_outer; None] None sched) as [_ H].
  destruct (H r (in_app_or _ _ _ Hr)) as (top & [E|[E|[]]] & Hin); [|discriminate E].
  now injection E as <-.
Defined.

Lemma no_panic_without_cancellation_witness :
  let sched :=
    [Pipe.MainRecv;
     Pipe.TaskStep 0 sample_clk sample_db; Pipe.TaskSend 0;
     Pipe.TaskStep 0 sample_clk sample_db; Pipe.TaskSend 0;
     Pipe.TaskStep 0 sample_clk sample_db;
     Pipe.MainRecv; Pipe.MainWaited; Pipe.TaskSend 0] in
  let st := Pipe.run no_HardCodedChecks split_first lineMatch_0_8 sched
              (Pipe.init NewAnalyzer [Some sample_outer; None] None) in
  Pipe.panicked st = false /\ Pipe.all_done (Pipe.tasks st) = true.
Proof.
  intros sched st.
  destruct (no_panic_without_cancellation no_HardCodedChecks split_first lineMatch_0_8
              NewAnalyzer [Some sample_outer; None] None sched eq_refl) as [H1 H2].
  split; [exact H1|]. apply H2. reflexivity.
Defined.

(* ------------------------------------------------------------------ *)
(** ** The pipeline and the recorder *)

Lemma record_same_ring (a a' : Analyzer) (line : list ascii) :
  recentMixinLogs a = recentMixinLogs a' ->
  recentMixinLogs (record a line) = recentMixinLogs (record a' line).
Proof.
  intros H. unfold record. destruct (FindSubmatch mixinLogRe line); [|exact H].
  cbn. now rewrite H.
Qed.

Lemma fold_record_same_ring (lines : list (list ascii)) :
  forall a a',
  recentMixinLogs a = recentMixinLogs a' ->
  recentMixinLogs (fold_left record lines a)
  = recentMixinLogs (fold_left record lines a').
Proof.
  induction lines as [|l lines IH]; intros a a' H; [exact H|].
  simpl. apply IH. now apply record_same_ring.
Qed.

Lemma updateErrorsLocked_keeps_ring (a : Analyzer) (db : ErrorDB) (now : Time) :
  recentMixinLogs (fst (updateErrorsLocked a db now)) = recentMixinLogs a.
Proof.
  destruct (db_result db) as [err|] eqn:H.
  - now rewrite (updateErrorsLocked_fail a db now err H).
  - now rewrite (updateErrorsLocked_ok a db now H).
Qed.

Lemma getErrors_keeps_ring (a : Analyzer) (db : ErrorDB) (clk : Clock) :
  recentMixinLogs (snd (getErrors a db clk)) = recentMixinLogs a.
Proof.
  unfold getErrors. cbn [snd].
  destruct (needUpdate a (now_rlock clk)); [|reflexivity].
  destruct (needUpdate a (now_lock clk)); [|reflexivity].
  apply updateErrorsLocked_keeps_ring.
Qed.

Section PipelineAndRecorder.

Variable HardCodedChecks : Analyzer -> JavaError -> option ErrorDesc * option error.
Variable split : string -> ascii -> string * string.
Variable lineMatchPercent : string -> string -> float32.

Let step_ := Pipe.step HardCodedChecks split lineMatchPercent.
Let run_ := Pipe.run HardCodedChecks split lineMatchPercent.

Lemma DoError_keeps_ring (a : Analyzer) (db : ErrorDB) (clk : Clock) (jerr : JavaError) :
  recentMixinLogs (snd (DoError HardCodedChecks split lineMatchPercent a db clk jerr))
  = recentMixinLogs a.
Proof.
  unfold DoError. destruct (fst (HardCodedChecks a jerr)); [reflexivity|].
  pose proof (getErrors_keeps_ring a db clk) as H.
  destruct (getErrors a db clk) as [errs a']. exact H.
Qed.

Lemma tee_inv_step (a0 : Analyzer) (st : Pipe.state) (t : list ascii)
    (act : Pipe.action) :
  tee_inv a0 st t -> tee_inv a0 (step_ st act) (t ++ teed [act]).
Proof.
  intros Hinv. unfold step_, Pipe.step.
  destruct (Pipe.panicked st) eqn:Hpan.
  { intros _ H. congruence. }
  assert (Hsame : forall st',
             (Pipe.main_pc st' <> Pipe.MDone -> Pipe.main_pc st <> Pipe.MDone) ->
             recentMixinLogs (Pipe.an st') = recentMixinLogs (Pipe.an st) ->
             Pipe.recorder st' = Pipe.recorder st ->
             tee_inv a0 st' t).
  { intros st' Hm Ha Hr Hm' _. rewrite Ha, Hr. apply Hinv; auto. }
  destruct act as [ | | | |tid clk db|tid|tid| | |b];
    cbn [teed flat_map app]; rewrite ?app_nil_r.
  - destruct (Pipe.main_pc st) eqn:Hm; try exact Hinv.
    destruct (Pipe.resCh st) as [|[jerr|] rest]; try exact Hinv;
      apply Hsame; try reflexivity; intros _; discriminate.
  - destruct (Pipe.main_pc st); try exact Hinv.
    destruct (Pipe.errCh st); try exact Hinv.
    intros H. now elim H.
  - destruct (Pipe.main_pc st); try exact Hinv.
    destruct (Pipe.ctx st); try exact Hinv.
    intros H. now elim H.
  - destruct (Pipe.main_pc st); try exact Hinv.
    destruct (Pipe.all_done (Pipe.tasks st)); try exact Hinv.
    intros H. now elim H.
  - destruct (Pipe.task_at (Pipe.tasks st) tid) as [[[jerr|]|res jerr|]|];
      try exact Hinv.
    pose proof (DoError_keeps_ring (Pipe.an st) db clk jerr) as Hr.
    destruct (DoError _ _ _ _ _ _ _) as [[matched [err|]] a'];
      apply Hsame; auto.
  - destruct (Pipe.task_at (Pipe.tasks st) tid) as [[oj|res jerr|]|]; try exact Hinv.
    destruct (Pipe.closed st); [intros _ H; discriminate H|].
    destruct (List.length (Pipe.result st) <? Pipe.result_cap);
      first [exact Hinv | apply Hsame; auto].
  - destruct (Pipe.task_at (Pipe.tasks st) tid) as [[oj|res jerr|]|]; try exact Hinv.
    destruct (Pipe.ctx st); first [exact Hinv | apply Hsame; auto].
  - destruct (Pipe.result st); first [exact Hinv | apply Hsame; auto].
  - first [exact Hinv | apply Hsame; auto].
  - rewrite Write_lines. unfold tee_inv. cbv beta iota.
    cbn [Pipe.main_pc Pipe.panicked Pipe.an Pipe.recorder buf].
    intros Hm _. destruct (Hinv Hm Hpan) as [Hring Hbuf].
    rewrite Hbuf, (split_lines_app t b).
    assert (Hrest : no_newline (snd (split_lines [] t)) = true)
      by (apply split_lines_rest_no_newline; reflexivity).
    rewrite <- (split_lines_cur b _ Hrest). cbn [fst snd]. split; [|reflexivity].
    rewrite fold_left_app. now apply fold_record_same_ring.
Qed.

Lemma tee_inv_run (a0 : Analyzer) (sched : list Pipe.action) :
  forall st t, tee_inv a0 st t -> tee_inv a0 (run_ sched st) (t ++ teed sched).
Proof.
  induction sched as [|act sched IH]; intros st t H.
  - simpl. now rewrite app_nil_r.
  - assert (E : teed (act :: sched) = teed [act] ++ teed sched)
      by (unfold teed; simpl; now rewrite app_nil_r).
    rewrite E, app_assoc. apply IH. now apply tee_inv_step.
Qed.

(** While the main goroutine of a session runs, the ring holds what the
    recorder extracts from all the text the scanner has read so far, as if
    that text had been written in one piece to the new recorder: the way the
    reads are cut and interleaved with the scoring goroutines and the cache
    refreshes they cause does not matter. *)
Theorem ring_follows_stream (a : Analyzer) (res : list (option JavaError))
    (err : option error) (sched : list Pipe.action) :
  let st := Pipe.run HardCodedChecks split lineMatchPercent sched (Pipe.init a res err) in
  let a0 := fst (newLogRecorder a) in
  Pipe.main_pc st <> Pipe.MDone ->
  Pipe.panicked st = false ->
  recentMixinLogs (Pipe.an st)
  = recentMixinLogs (fst (fst (Write a0 (snd (newLogRecorder a)) (teed sched)))) /\
  buf (Pipe.recorder st) = snd (split_lines [] (teed sched)).
Proof.
  intros st a0 Hm Hp. rewrite Write_lines. cbn [fst snd buf newLogRecorder app].
  assert (H0 : tee_inv a0 (Pipe.init a res err) []).
  { intros _ _. split; reflexivity. }
  apply (tee_inv_run a0 sched) in H0. simpl app in H0. now apply H0.
Qed.

End PipelineAndRecorder.

Lemma ring_follows_stream_witness :
  let sched :=
    [Pipe.Tee (bytes "[12:00:00] [main/INFO] [mix"); Pipe.MainRecv;
     Pipe.TaskStep 0 sample_clk sample_db;
     Pipe.Tee (bytes "in/]: Hello
[12:00:01] [main/INFO] [mixin/]: wor"); Pipe.TaskSend 0] in
  let st := Pipe.run no_HardCodedChecks split_first lineMatch_0_8 sched
              (Pipe.init NewAnalyzer [Some sample_outer; None] None) in
  RingBuffer.items (recentMixinLogs (Pipe.an st)) = ["Hello"%string] /\
  buf (Pipe.recorder st) = bytes "[12:00:01] [main/INFO] [mixin/]: wor".
Proof.
  intros sched st.
  assert (Hm : Pipe.main_pc st <> Pipe.MDone) by (vm_compute; discriminate).
  assert (Hp : Pipe.panicked st = false) by (vm_compute; reflexivity).
  destruct (ring_follows_stream no_HardCodedChecks split_first lineMatch_0_8
              NewAnalyzer [Some sample_outer; None] None sched Hm Hp) as [H1 H2].
  split.
  - etransitivity; [apply f_equal; exact H1|]. vm_compute. reflexivity.
  - etransitivity; [exact H2|]. vm_compute. reflexivity.
Defined.


(* ------------------------------------------------------------------ *)
(** ** Concurrent calls: what is returned *)

Lemma pc_ok_goto (st : Conc.state) (a' : Analyzer) (tid : nat) (p : Conc.pc) :
  (cachedErrors (Conc.an st) <> None -> cachedErrors a' <> None) ->
  pc_ok a' p ->
  (forall t, pc_ok (Conc.an st) (Conc.pcs st t)) ->
  forall t, pc_ok a' (Conc.set_pc (Conc.pcs st) tid p t).
Proof.
  intros Hmono Hp Hall t. unfold Conc.set_pc.
  destruct (t =? tid); [exact Hp|].
  specialize (Hall t). unfold pc_ok in *.
  destruct (Conc.pcs st t) as [ | |[|]| | | | | |errs]; auto.
Qed.

Lemma needUpdate_false_loaded (a : Analyzer) (now : Time) :
  needUpdate a now = false -> IsZero (lastUpdateErr a) = false.
Proof.
  unfold needUpdate. intros H. apply orb_false_iff in H. tauto.
Qed.

Lemma loaded_inv_step (st : Conc.state) (e : Conc.event) :
  db_result (Conc.ev_db e) = None ->
  loaded_inv st -> loaded_inv (Conc.step st e).
Proof.
  intros Hdb Hinv. pose proof Hinv as [H1 H2]. unfold Conc.step.
  destruct (Conc.pcs st (Conc.ev_tid e)) as [ | |nu| | | | | |errs] eqn:Hpc.
  - destruct (Conc.writer st); [exact Hinv|].
    split; [exact H1|]. cbn [Conc.an Conc.pcs]. apply pc_ok_goto; auto. exact I.
  - split; [exact H1|]. cbn [Conc.an Conc.pcs]. apply pc_ok_goto; auto.
    destruct (needUpdate (Conc.an st) (Conc.ev_now e)) eqn:Hn; [exact I|].
    apply H1. now apply (needUpdate_false_loaded _ (Conc.ev_now e)).
  - split; [exact H1|]. cbn [Conc.an Conc.pcs]. apply pc_ok_goto; auto.
    specialize (H2 (Conc.ev_tid e)). rewrite Hpc in H2.
    destruct nu; [exact I|exact H2].
  - destruct (Conc.writer st); [exact Hinv|].
    destruct (Conc.readers st); [|exact Hinv].
    split; [exact H1|]. cbn [Conc.an Conc.pcs]. apply pc_ok_goto; auto. exact I.
  - split; [exact H1|]. cbn [Conc.an Conc.pcs]. apply pc_ok_goto; auto.
    destruct (needUpdate (Conc.an st) (Conc.ev_now e)) eqn:Hn; [exact I|].
    apply H1. now apply (needUpdate_false_loaded _ (Conc.ev_now e)).
  - rewrite (updateErrorsLocked_ok _ _ _ Hdb).
    split; cbn [Conc.an Conc.pcs cachedErrors lastUpdateErr]; [discriminate|].
    apply pc_ok_goto; auto; cbn; discriminate.
  - split; [exact H1|]. cbn [Conc.an Conc.pcs]. apply pc_ok_goto; auto.
    specialize (H2 (Conc.ev_tid e)). now rewrite Hpc in H2.
  - split; [exact H1|]. cbn [Conc.an Conc.pcs]. apply pc_ok_goto; auto.
    specialize (H2 (Conc.ev_tid e)). now rewrite Hpc in H2.
  - exact Hinv.
Qed.

(** With a repository that does not fail, no caller of [getErrors] gets
    the nil set, however the calls are interleaved and whatever the clock
    shows: every call that finds nothing loaded waits for a refresh or makes
    one. *)
Theorem getErrors_never_nil (a : Analyzer) (sched : list Conc.event)
    (tid : nat) (errs : slice ErrorDesc) :
  (IsZero (lastUpdateErr a) = false -> cachedErrors a <> None) ->
  Forall (fun e => db_result (Conc.ev_db e) = None) sched ->
  Conc.pcs (Conc.run sched (Conc.init a)) tid = Conc.Returned errs ->
  errs <> None.
Proof.
  intros Ha Hs.
  assert (Hinv : loaded_inv (Conc.run sched (Conc.init a))).
  { assert (H0 : loaded_inv (Conc.init a)) by (split; [exact Ha|intros t; exact I]).
    revert H0. generalize (Conc.init a).
    induction Hs as [|e sched He _ IH]; intros st H0; [exact H0|].
    apply IH. now apply loaded_inv_step. }
  intros Hr. destruct Hinv as [_ H]. specialize (H tid). now rewrite Hr in H.
Qed.

Lemma getErrors_never_nil_witness :
  let db := {| db_visits := []; db_result := None |} in
  let sched := Conc.sched_of db 0%Z
                 [0; 1; 0; 1; 0; 1; 0; 0; 0; 0; 1; 1; 1; 1; 0; 1] in
  Conc.pcs (Conc.run sched (Conc.init NewAnalyzer)) 1 = Conc.Returned (Some []) /\
  Some (@nil ErrorDesc) <> None.
Proof.
  intros db sched.
  assert (H : Conc.pcs (Conc.run sched (Conc.init NewAnalyzer)) 1
              = Conc.Returned (Some [])) by (vm_compute; reflexivity).
  split; [exact H|].
  apply (getErrors_never_nil NewAnalyzer sched 1 (Some [])).
  - intros Hz. discriminate Hz.
  - apply Forall_sched_of. reflexivity.
  - exact H.
Defined.
